(** * Job market analyzer (scraper.py): signal extraction and merge

    A shallow embedding of [JobMarketAnalyzer] from [src/scraper.py]:
    the tokenizer and the three regular-expression extractors of
    [_analyze_post], the in-memory counters, and the SQLite store
    written by [_update_db] and read by [load_from_db].

    Modelling conventions.
    - Python [str] values are [string]s; a character is a code point
      below 256, classified the way CPython classifies U+0000..U+00FF
      ([str.isspace], and [\s], [\w], [\d] of [re] on [str] patterns).
    - Python [int] counts and SQLite INTEGER counts are [Z].  A
      SQLite INTEGER lies within 64 bits ([int64]); sums computed by
      the store are exact only within that range.
    - [dict] and [defaultdict(int)] are [gmap string Z]: no function
      modelled here depends on the insertion order of keys.
    - A SQLite table with a UNIQUE text column and a count column is a
      [gmap string Z]; row ids and timestamps are assigned by the store
      and are not modelled. *)

From Stdlib Require Import ZArith NArith Ascii String List Permutation Lia.
From stdpp Require Import base option list gmap strings fin_maps sorting.

Local Open Scope string_scope.
Local Open Scope Z_scope.

(** ** Characters *)

Module Char.

Definition code (c : ascii) : N := N_of_ascii c.

Definition between (lo hi : N) (c : ascii) : bool :=
  ((lo <=? code c) && (code c <=? hi))%N.

Definition has_code (n : N) (c : ascii) : bool := (code c =? n)%N.

(** [str.isspace()] and [\s] for code points below 256. *)
Definition isspace (c : ascii) : bool :=
  between 9 13 c || between 28 32 c || has_code 133 c || has_code 160 c.

(** [\d] for code points below 256. *)
Definition isdigit (c : ascii) : bool := between 48 57 c.

Definition islower_az (c : ascii) : bool := between 97 122 c.
Definition isupper_AZ (c : ascii) : bool := between 65 90 c.

(** [\w]: alphanumeric or underscore, for code points below 256. *)
Definition isword (c : ascii) : bool :=
  isdigit c || isupper_AZ c || has_code 95 c || islower_az c
  || has_code 170 c || has_code 178 c || has_code 179 c || has_code 181 c || has_code 185 c || has_code 186 c
  || between 188 190 c || between 192 214 c || between 216 246 c
  || between 248 255 c.

(** Membership of a character in a string used as a character set. *)
Fixpoint member (c : ascii) (set : string) : bool :=
  match set with
  | EmptyString => false
  | String d set' => Ascii.eqb c d || member c set'
  end.

End Char.

(** ** String operations of Python used by the analyzer *)

Module Str.

Definition is_empty (s : string) : bool :=
  match s with EmptyString => true | String _ _ => false end.

(** [s.lstrip(chars)], with the character set as a predicate. *)
Fixpoint lstrip (p : ascii → bool) (s : string) : string :=
  match s with
  | EmptyString => EmptyString
  | String c s' => if p c then lstrip p s' else s
  end.

(** [s.rstrip(chars)]. *)
Fixpoint rstrip (p : ascii → bool) (s : string) : string :=
  match s with
  | EmptyString => EmptyString
  | String c s' =>
      let r := rstrip p s' in
      if is_empty r && p c then EmptyString else String c r
  end.

(** [s.strip(chars)] removes the characters of the set from both ends. *)
Definition strip_by (p : ascii → bool) (s : string) : string :=
  rstrip p (lstrip p s).

(** [s.strip()]: whitespace is removed. *)
Definition strip (s : string) : string := strip_by Char.isspace s.

(** [s.strip(chars)] for an explicit set of characters. *)
Definition strip_chars (chars : string) (s : string) : string :=
  strip_by (λ c, Char.member c chars) s.

(** [s.split()]: the maximal runs of non-whitespace characters, in
    order.  [cur] is the run being read. *)
Fixpoint split_from (cur : string) (s : string) : list string :=
  match s with
  | EmptyString => if is_empty cur then [] else [cur]
  | String c s' =>
      if Char.isspace c
      then (if is_empty cur then [] else [cur]) ++ split_from EmptyString s'
      else split_from (cur +:+ String c EmptyString) s'
  end.

Definition split (s : string) : list string := split_from EmptyString s.

(** The first [n] characters of [s]. *)
Fixpoint take (n : nat) (s : string) : string :=
  match n, s with
  | S n', String c s' => String c (take n' s')
  | _, _ => EmptyString
  end.

(** [eat p s] is [Some rest] when [s = p ++ rest]. *)
Fixpoint eat (p s : string) : option string :=
  match p, s with
  | EmptyString, _ => Some s
  | String a p', String b s' => if Ascii.eqb a b then eat p' s' else None
  | String _ _, EmptyString => None
  end.

Fixpoint last_char (prev : option ascii) (s : string) : option ascii :=
  match s with
  | EmptyString => prev
  | String c s' => last_char (Some c) s'
  end.

(** Every character of [s] satisfies [p]. *)
Fixpoint all (p : ascii → bool) (s : string) : bool :=
  match s with
  | EmptyString => true
  | String c s' => p c && all p s'
  end.

Definition first_char (s : string) : option ascii :=
  match s with EmptyString => None | String c _ => Some c end.

(** [sub] occurs in [s] ([sub in s] of Python). *)
Fixpoint contains (sub s : string) : bool :=
  match eat sub s with
  | Some _ => true
  | None => match s with
            | EmptyString => false
            | String _ s' => contains sub s'
            end
  end.

End Str.

(** ** Regular expressions

    The fragment of Python's [re] syntax used by the three patterns of
    [_analyze_post], with the matching discipline of [re]: leftmost
    match, alternatives tried in order, greedy repetition with
    backtracking. *)

Module Re.

Inductive regex : Type :=
| Lit (s : string)                         (* literal text *)
| Rep (p : ascii → bool) (lo : nat) (hi : option nat)
                                           (* [class]{lo,hi}, greedy; [+] is {1,} *)
| WordB                                    (* \b *)
| Alt (r1 r2 : regex)                      (* r1|r2 *)
| Seq (r1 r2 : regex)                      (* r1 r2 *)
| Group (i : nat) (r : regex).             (* i-th capturing group *)

(** The matcher's position: the character before the cursor, the text
    after it, and the groups captured so far. *)
Record pos : Type := Pos {
  before : option ascii;
  rest : string;
  groups : list (nat * string)
}.

Definition wordish (c : option ascii) : bool :=
  match c with Some c => Char.isword c | None => false end.

Definition next_char (s : string) : option ascii :=
  match s with EmptyString => None | String c _ => Some c end.

(** [\b]: exactly one side of the cursor is a word character. *)
Definition at_boundary (p : pos) : bool :=
  xorb (wordish (before p)) (wordish (next_char (rest p))).

(** Greedy bounded repetition of one character class: take one more
    character whenever allowed, and fall back to stopping here when the
    continuation rejects every longer run. *)
Fixpoint rep {A} (p : ascii → bool) (lo : nat) (hi : option nat)
    (b : option ascii) (s : string)
    (k : option ascii → string → option A) : option A :=
  let stop := match lo with O => k b s | S _ => None end in
  match s with
  | EmptyString => stop
  | String c s' =>
      if p c && negb (bool_decide (hi = Some O))
      then match rep p (Nat.pred lo) (Nat.pred <$> hi) (Some c) s' k with
           | Some x => Some x
           | None => stop
           end
      else stop
  end.

(** The text consumed between two positions of the same subject. *)
Definition consumed (p0 p1 : pos) : string :=
  Str.take (String.length (rest p0) - String.length (rest p1)) (rest p0).

(** Backtracking matcher in continuation-passing style: [run r p k]
    matches [r] at [p] and hands each candidate end position to [k],
    in the order [re] explores them, until [k] accepts one. *)
Fixpoint run {A} (r : regex) (p : pos) (k : pos → option A) : option A :=
  match r with
  | Lit s =>
      match Str.eat s (rest p) with
      | Some s' => k (Pos (Str.last_char (before p) s) s' (groups p))
      | None => None
      end
  | Rep c lo hi =>
      rep c lo hi (before p) (rest p) (λ b s, k (Pos b s (groups p)))
  | WordB => if at_boundary p then k p else None
  | Alt r1 r2 =>
      match run r1 p k with
      | Some x => Some x
      | None => run r2 p k
      end
  | Seq r1 r2 => run r1 p (λ p', run r2 p' k)
  | Group i r =>
      run r p (λ p', k (Pos (before p') (rest p') ((i, consumed p p') :: groups p')))
  end.

(** [pattern.match] at one position: the end position of the match. *)
Definition match_at (r : regex) (b : option ascii) (s : string) : option pos :=
  run r (Pos b s []) Some.

(** Text of group [i] of a match; a group that did not take part reads
    as the empty string, as in the tuples of [re.findall]. *)
Fixpoint group (i : nat) (gs : list (nat * string)) : string :=
  match gs with
  | [] => EmptyString
  | (j, s) :: gs' => if Nat.eqb i j then s else group i gs'
  end.

(** A match at one position that consumes at least one character. *)
Definition match_nonempty_at (r : regex) (b : option ascii) (s : string)
    : option pos :=
  run r (Pos b s [])
    (λ e, if (String.length (rest e) <? String.length s)%nat then Some e else None).

(** The number of characters a match starting at [s] consumed. *)
Definition width (s : string) (e : pos) : nat :=
  (String.length s - String.length (rest e))%nat.

(** [re.finditer]: scan left to right; after a match the scan resumes
    where the match ended.  [skip] counts the characters of the last
    match still to be stepped over.  After an empty match the same
    position is tried once more for a match that is not empty, and
    then the scan moves on. *)
Fixpoint scan (r : regex) (b : option ascii) (s : string) (skip : nat)
    : list (list (nat * string)) :=
  let next skip' :=
    match s with
    | EmptyString => []
    | String c s' => scan r (Some c) s' skip'
    end in
  match skip with
  | S n => next n
  | O =>
      match match_at r b s with
      | None => next O
      | Some e =>
          groups e ::
          match width s e with
          | S n => next n
          | O =>
              match match_nonempty_at r b s with
              | Some e' => groups e' :: next (Nat.pred (width s e'))
              | None => next O
              end
          end
      end
  end.

Definition finditer (r : regex) (s : string) : list (list (nat * string)) :=
  scan r None s O.

(** [re.findall] for a pattern with one group: the list of its texts. *)
Definition findall1 (r : regex) (s : string) : list string :=
  map (group 1) (finditer r s).

(** [re.findall] for a pattern with two groups: the list of pairs. *)
Definition findall2 (r : regex) (s : string) : list (string * string) :=
  map (λ gs, (group 1 gs, group 2 gs)) (finditer r s).

(** [a1|a2|...|an] over literal alternatives. *)
Fixpoint alts (l : list string) : regex :=
  match l with
  | [] => Lit EmptyString
  | [a] => Lit a
  | a :: l' => Alt (Lit a) (alts l')
  end.

End Re.

(** ** The analyzer *)

(** The keys of [self.technologies] set up by [__init__]. *)
Definition vocabulary : list string :=
  [ "python"; "javascript"; "typescript"; "java"; "c#"; "c++"; "go";
    "rust"; "ruby"; "php"; "swift"; "kotlin"; "scala"; "dart"; "react";
    "angular"; "vue"; "node"; "django"; "flask"; "aws"; "azure"; "gcp";
    "docker"; "kubernetes"; "sql"; "nosql"; "mongodb"; "postgresql";
    "mysql" ].

(** The attributes of a [JobMarketAnalyzer] ([db_path] names the store,
    which is passed explicitly below). *)
Record analyzer : Type := Analyzer {
  technologies : gmap string Z;
  locations : gmap string Z;
  salary_ranges : gmap string Z;
  job_titles : gmap string Z;
  job_posts : list string
}.

(** [__init__]: every vocabulary entry at 0, the three [defaultdict]s
    and the post list empty. *)
Definition init : analyzer :=
  Analyzer (list_to_map (map (λ t, (t, 0)) vocabulary)) ∅ ∅ ∅ [].

(** [d[key] += 1] on a [defaultdict(int)]. *)
Definition incr (key : string) (d : gmap string Z) : gmap string Z :=
  <[key := default 0 (d !! key) + 1]> d.

(** The characters removed from both ends of a token, the argument of
    [word.strip]: . , / : ; ! @ ( ) [ ] { } the apostrophe and the
    double quote (code 34). *)
Definition strip_set : string :=
  String.append ".,/:;!@()[]{}'" (String (ascii_of_nat 34) EmptyString).

(** [{word.strip(...) for word in post.split()}]. *)
Definition words (post : string) : gset string :=
  list_to_set (map (Str.strip_chars strip_set) (Str.split post)).

(** [for tech in self.technologies: if tech in words:
       self.technologies[tech] += 1]. *)
Definition count_technologies (ws : gset string) (techs : gmap string Z)
    : gmap string Z :=
  map_imap (λ tech n, Some (if bool_decide (tech ∈ ws) then n + 1 else n)) techs.

(** [[a-zA-Z\s,]] and [[a-zA-Z\s]]. *)
Definition location_class (c : ascii) : bool :=
  Char.islower_az c || Char.isupper_AZ c || Char.isspace c || Char.has_code 44 c.

Definition title_class (c : ascii) : bool :=
  Char.islower_az c || Char.isupper_AZ c || Char.isspace c.

Definition location_anchors : list string :=
  [ "located in"; "based in"; "remote"; "hybrid"; "onsite"; "in" ].

Definition title_anchors : list string :=
  [ "looking for"; "seeking"; "position"; "role" ].

(** [r"\b(located in|based in|remote|hybrid|onsite|in)\s+([a-zA-Z\s,]+)"] *)
Definition location_pattern : Re.regex :=
  Re.Seq Re.WordB
    (Re.Seq (Re.Group 1 (Re.alts location_anchors))
       (Re.Seq (Re.Rep Char.isspace 1 None)
          (Re.Group 2 (Re.Rep location_class 1 None)))).

(** [r"\$(\d{2,3}k|\d{3},\d{3})"] *)
Definition salary_pattern : Re.regex :=
  Re.Seq (Re.Lit "$")
    (Re.Group 1
       (Re.Alt
          (Re.Seq (Re.Rep Char.isdigit 2 (Some 3%nat)) (Re.Lit "k"))
          (Re.Seq (Re.Rep Char.isdigit 3 (Some 3%nat))
             (Re.Seq (Re.Lit ",") (Re.Rep Char.isdigit 3 (Some 3%nat)))))).

(** [r"\b(looking for|seeking|position|role)\s+([a-zA-Z\s]+)\b"] *)
Definition title_pattern : Re.regex :=
  Re.Seq Re.WordB
    (Re.Seq (Re.Group 1 (Re.alts title_anchors))
       (Re.Seq (Re.Rep Char.isspace 1 None)
          (Re.Seq (Re.Group 2 (Re.Rep title_class 1 None)) Re.WordB))).

(** [matches = re.findall(pattern, post);
     if matches: key = matches[0][1].strip(); d[key] += 1] *)
Definition count_first (matches : list (string * string)) (d : gmap string Z)
    : gmap string Z :=
  match matches with
  | [] => d
  | m :: _ => incr (Str.strip (snd m)) d
  end.

(** [for salary in salaries: self.salary_ranges[salary] += 1] *)
Definition count_all (keys : list string) (d : gmap string Z) : gmap string Z :=
  foldl (λ d key, incr key d) d keys.

(** [_analyze_post(post)]. *)
Definition _analyze_post (post : string) (self : analyzer) : analyzer :=
  Analyzer
    (count_technologies (words post) (technologies self))
    (count_first (Re.findall2 location_pattern post) (locations self))
    (count_all (Re.findall1 salary_pattern post) (salary_ranges self))
    (count_first (Re.findall2 title_pattern post) (job_titles self))
    (job_posts self).

(** The four scrapers end the same way for every post text they build:
    [self.job_posts.append(post_text); self._analyze_post(post_text)]. *)
Inductive site : Type := HackerNews | Indeed | LinkedIn | StackOverflow.

Definition scrape_post (from : site) (post_text : string) (self : analyzer)
    : analyzer :=
  _analyze_post post_text
    (Analyzer (technologies self) (locations self) (salary_ranges self)
       (job_titles self) (job_posts self ++ [post_text])).

(** One scraper call over the post texts it extracted from a page. *)
Definition scrape (from : site) (post_texts : list string) (self : analyzer)
    : analyzer :=
  foldl (λ self post_text, scrape_post from post_text self) self post_texts.

(** ** The store

    The SQLite database behind [db_path], as [_init_db] lays it out:
    four tables of (key, count) rows with a UNIQUE key, and the
    append-only table [job_posts] of (source, content) rows. *)

Record database : Type := Database {
  tbl_technologies : gmap string Z;
  tbl_locations : gmap string Z;
  tbl_salaries : gmap string Z;
  tbl_job_titles : gmap string Z;
  tbl_job_posts : list (string * string)
}.

(** A database file that did not exist before [_init_db]. *)
Definition empty_db : database := Database ∅ ∅ ∅ ∅ [].

(** [_init_db]: CREATE TABLE IF NOT EXISTS keeps what is there. *)
Definition _init_db (db : database) : database := db.

Inductive table : Type := Technologies | Locations | Salaries | JobTitles.

#[global] Instance table_eq_dec : EqDecision table.
Proof. solve_decision. Defined.

(** The two statements [_update_db] sends:
    [INSERT OR IGNORE INTO t (key, count) VALUES (?, ?)
       ON CONFLICT(key) DO UPDATE SET count = count + excluded.count]
    and [INSERT INTO job_posts (source, content) VALUES (?, ?)]. *)
Inductive statement : Type :=
| Upsert (t : table) (key : string) (count : Z)
| InsertPost (source content : string).

(** SQLite keeps an INTEGER in 64 bits, two's complement. *)
Definition int64 (n : Z) : Prop :=
  -9223372036854775808 <= n <= 9223372036854775807.

(** The upsert on one table: a row with this key is updated to
    [count + excluded.count], otherwise the row is inserted.  The sum
    is SQLite's sum of two INTEGERs, which is the mathematical sum as
    long as that fits in 64 bits; beyond, SQLite stores a
    floating-point approximation, which a [Z] count does not
    represent.  [stored + count] below is therefore the stored value
    only when [int64 (stored + count)]; the statements that give the
    value of a stored sum carry that bound. *)
Definition upsert_add (key : string) (count : Z) (rows : gmap string Z)
    : gmap string Z :=
  match rows !! key with
  | Some stored => <[key := stored + count]> rows
  | None => <[key := count]> rows
  end.

Definition get_table (t : table) (db : database) : gmap string Z :=
  match t with
  | Technologies => tbl_technologies db
  | Locations => tbl_locations db
  | Salaries => tbl_salaries db
  | JobTitles => tbl_job_titles db
  end.

Definition set_table (t : table) (rows : gmap string Z) (db : database)
    : database :=
  match t with
  | Technologies =>
      Database rows (tbl_locations db) (tbl_salaries db) (tbl_job_titles db)
        (tbl_job_posts db)
  | Locations =>
      Database (tbl_technologies db) rows (tbl_salaries db) (tbl_job_titles db)
        (tbl_job_posts db)
  | Salaries =>
      Database (tbl_technologies db) (tbl_locations db) rows (tbl_job_titles db)
        (tbl_job_posts db)
  | JobTitles =>
      Database (tbl_technologies db) (tbl_locations db) (tbl_salaries db) rows
        (tbl_job_posts db)
  end.

(** The effect of one statement on the data. *)
Definition apply_statement (s : statement) (db : database) : database :=
  match s with
  | Upsert t key count => set_table t (upsert_add key count (get_table t db)) db
  | InsertPost source content =>
      Database (tbl_technologies db) (tbl_locations db) (tbl_salaries db)
        (tbl_job_titles db) (tbl_job_posts db ++ [(source, content)])
  end.

(** A Python exception, by the name of its class and its message. *)
Record py_exception : Type := PyException {
  exc_class : string;
  exc_message : string
}.

(** How a call ends. *)
Inductive outcome : Type :=
| Returned
| Raised (e : py_exception).

(** An open connection: the number of calls made on it so far and the
    data as the open transaction sees it. *)
Record connection : Type := Connection {
  calls : nat;
  data : database
}.

(** Code running on a connection either raises or yields a value and
    the connection. *)
Definition sql (A : Type) : Type := connection → py_exception + (A * connection).

Definition sql_ret {A} (a : A) : sql A := λ c, inr (a, c).

Definition sql_bind {A B} (m : sql A) (k : A → sql B) : sql B :=
  λ c, match m c with
       | inl e => inl e
       | inr (a, c') => k a c'
       end.

Notation "m ;;; k" := (sql_bind m (λ _, k))
  (at level 100, right associativity).

(** [for x in xs: body(x)]. *)
Fixpoint for_each {X} (xs : list X) (body : X → sql unit) : sql unit :=
  match xs with
  | [] => sql_ret ()
  | x :: xs' => body x ;;; for_each xs' body
  end.

(** [d.items()] of a dictionary. *)
Definition items (d : gmap string Z) : list (string * Z) := map_to_list d.

Section Store.

(** The store is an external collaborator and each call on it may
    fail: [faults n] is the exception that the [n]-th call on a
    connection raises, if any. *)
Variable faults : nat → option py_exception.

(** [cursor.execute(statement)]. *)
Definition execute (s : statement) : sql unit :=
  λ c, match faults (calls c) with
       | Some e => inl e
       | None => inr ((), Connection (S (calls c)) (apply_statement s (data c)))
       end.

(** [cursor.execute("SELECT ... FROM t"); cursor.fetchall()]. *)
Definition select {A} (read : database → A) : sql A :=
  λ c, match faults (calls c) with
       | Some e => inl e
       | None => inr (read (data c), Connection (S (calls c)) (data c))
       end.

(** [conn.commit()]. *)
Definition commit : sql unit :=
  λ c, match faults (calls c) with
       | Some e => inl e
       | None => inr ((), Connection (S (calls c)) (data c))
       end.

(** [with sqlite3.connect(self.db_path) as conn: body]: when the body
    returns, the transaction is committed; when it raises, the
    transaction is rolled back and the exception goes on to the
    caller. *)
Definition with_connection (body : sql unit) (db : database)
    : database * outcome :=
  match body (Connection 0 db) with
  | inr (_, c) => (data c, Returned)
  | inl e => (db, Raised e)
  end.

(** The body of the [with] block of [_update_db]. *)
Definition update_body (self : analyzer) : sql unit :=
  for_each (items (technologies self))
    (λ '(tech, count), execute (Upsert Technologies tech count)) ;;;
  for_each (items (locations self))
    (λ '(loc, count), execute (Upsert Locations loc count)) ;;;
  for_each (items (salary_ranges self))
    (λ '(sal, count), execute (Upsert Salaries sal count)) ;;;
  for_each (items (job_titles self))
    (λ '(title, count), execute (Upsert JobTitles title count)) ;;;
  for_each (job_posts self)
    (λ post, execute (InsertPost "Hacker News" post)) ;;;
  commit.

(** [_update_db()]: the analyzer (which the method only reads), the
    store and the way the call ends.  The method has no handler, so an
    exception of the store leaves it as it is. *)
Definition _update_db (self : analyzer) (db : database)
    : analyzer * database * outcome :=
  let '(db', out) := with_connection (update_body self) db in
  (self, db', out).

End Store.

(** A run in which no call on the store fails. *)
Definition no_faults : nat → option py_exception := λ _, None.

(** [for name, count in rows: if name in self.technologies:
       self.technologies[name] = count] *)
Definition load_technologies (rows : list (string * Z)) (techs : gmap string Z)
    : gmap string Z :=
  foldl (λ techs '(name, count),
           if bool_decide (is_Some (techs !! name))
           then <[name := count]> techs else techs)
        techs rows.

(** [for name, count in rows: d[name] = count] *)
Definition load_counts (rows : list (string * Z)) (d : gmap string Z)
    : gmap string Z :=
  foldl (λ d '(name, count), <[name := count]> d) d rows.

(** [load_from_db()]: the five SELECTs in order, each followed by its
    assignments.  [except Exception] prints and returns, so after a
    failing call the analyzer keeps what was assigned before it. *)
Definition load_from_db (faults : nat → option py_exception)
    (self : analyzer) (db : database) : analyzer :=
  match faults 0%nat with Some _ => self | None =>
  let self :=
    Analyzer (load_technologies (items (tbl_technologies db)) (technologies self))
      (locations self) (salary_ranges self) (job_titles self) (job_posts self) in
  match faults 1%nat with Some _ => self | None =>
  let self :=
    Analyzer (technologies self)
      (load_counts (items (tbl_locations db)) (locations self))
      (salary_ranges self) (job_titles self) (job_posts self) in
  match faults 2%nat with Some _ => self | None =>
  let self :=
    Analyzer (technologies self) (locations self)
      (load_counts (items (tbl_salaries db)) (salary_ranges self))
      (job_titles self) (job_posts self) in
  match faults 3%nat with Some _ => self | None =>
  let self :=
    Analyzer (technologies self) (locations self) (salary_ranges self)
      (load_counts (items (tbl_job_titles db)) (job_titles self))
      (job_posts self) in
  match faults 4%nat with Some _ => self | None =>
  Analyzer (technologies self) (locations self) (salary_ranges self)
    (job_titles self) (map snd (tbl_job_posts db))
  end end end end end.

(** [main]'s use of the analyzer over one run: the posts of a whole
    run analysed in order. *)
Definition analyze_all (posts : list string) (self : analyzer) : analyzer :=
  foldl (λ self post, _analyze_post post self) self posts.

(** The count a mapping holds for a key, 0 when the key is absent. *)
Definition count_of (key : string) (d : gmap string Z) : Z :=
  default 0 (d !! key).

(** The in-memory mapping that [_update_db] merges into a table. *)
Definition get_counter (t : table) (self : analyzer) : gmap string Z :=
  match t with
  | Technologies => technologies self
  | Locations => locations self
  | Salaries => salary_ranges self
  | JobTitles => job_titles self
  end.

(** The first exception among the calls numbered [n], ..., [n + k - 1]. *)
Fixpoint first_fault (faults : nat → option py_exception) (n k : nat)
    : option py_exception :=
  match k with
  | O => None
  | S k' => match faults n with
            | Some e => Some e
            | None => first_fault faults (S n) k'
            end
  end.

(** The number of calls one [_update_db] makes on its connection: one
    [execute] per key of each mapping and per post, and the commit. *)
Definition merge_calls (self : analyzer) : nat :=
  (length (items (technologies self)) + length (items (locations self))
   + length (items (salary_ranges self)) + length (items (job_titles self))
   + length (job_posts self) + 1)%nat.

(** A sequence of upserts on one table. *)
Definition upsert_all (l : list (string * Z)) (rows : gmap string Z)
    : gmap string Z :=
  foldl (λ rows kv, upsert_add kv.1 kv.2 rows) rows l.

(** The data after the statements of one [_update_db]. *)
Definition merged (self : analyzer) (db : database) : database :=
  Database
    (upsert_all (items (technologies self)) (tbl_technologies db))
    (upsert_all (items (locations self)) (tbl_locations db))
    (upsert_all (items (salary_ranges self)) (tbl_salaries db))
    (upsert_all (items (job_titles self)) (tbl_job_titles db))
    (tbl_job_posts db ++ map (λ post, ("Hacker News", post)) (job_posts self)).

(** ** Sessions *)

(** No count of the mapping is negative. *)
Definition nonneg (d : gmap string Z) : Prop :=
  map_Forall (λ _ n, 0 <= n) d.

Definition counters_nonneg (self : analyzer) : Prop :=
  ∀ t, nonneg (get_counter t self).

Definition db_nonneg (db : database) : Prop :=
  ∀ t, nonneg (get_table t db).

(** What one session can do to the analyzer and the store, as [main]
    drives them: load, scrape a post, merge; any call on the store may
    fail. *)
Inductive step : analyzer * database → analyzer * database → Prop :=
| step_load faults self db :
    step (self, db) (load_from_db faults self db, db)
| step_scrape from post_text self db :
    step (self, db) (scrape_post from post_text self, db)
| step_update faults self db :
    step (self, db) (_update_db faults self db).1.

(** The states a session reaches from a fresh analyzer. *)
Definition reachable (db0 : database) (s : analyzer * database) : Prop :=
  rtc step (init, _init_db db0) s.

(** ** What a pattern can consume *)

(** [shape r w]: the text [w] is one that [r] can consume, leaving
    aside what [\b] asks of the characters around it.  Used to state
    what the keys found by the extractors look like. *)
Fixpoint shape (r : Re.regex) (w : string) : Prop :=
  match r with
  | Re.Lit s => w = s
  | Re.Rep p lo hi =>
      Str.all p w = true ∧ (lo <= String.length w)%nat
      ∧ match hi with
        | Some h => (String.length w <= h)%nat
        | None => True
        end
  | Re.WordB => w = EmptyString
  | Re.Alt r1 r2 => shape r1 w ∨ shape r2 w
  | Re.Seq r1 r2 => ∃ w1 w2, w = w1 +:+ w2 ∧ shape r1 w1 ∧ shape r2 w2
  | Re.Group _ r => shape r w
  end.

(** A salary key: two or three digits and [k], or three digits, a
    comma and three digits. *)
Definition salary_key (key : string) : Prop :=
  (∃ d, key = d +:+ "k" ∧ Str.all Char.isdigit d = true
        ∧ (2 <= String.length d <= 3)%nat)
  ∨ (∃ d1 d2, key = d1 +:+ "," +:+ d2
              ∧ Str.all Char.isdigit d1 = true ∧ String.length d1 = 3%nat
              ∧ Str.all Char.isdigit d2 = true ∧ String.length d2 = 3%nat).

(** ** Dispatch and the command line *)

(** The test chain of [scrape_site]: the first site whose host name
    occurs anywhere in the URL; [None] is the branch that prints
    [Unsupported website]. *)
Definition site_of (url : string) : option site :=
  if Str.contains "news.ycombinator.com" url then Some HackerNews
  else if Str.contains "indeed.com" url then Some Indeed
  else if Str.contains "linkedin.com" url then Some LinkedIn
  else if Str.contains "stackoverflow.com" url then Some StackOverflow
  else None.

(** [scrape_site(url)], given the post texts the chosen scraper gets
    out of the page before it returns (none when the request fails). *)
Definition scrape_site (url : string) (post_texts : list string)
    (self : analyzer) : analyzer :=
  match site_of url with
  | Some from => scrape from post_texts self
  | None => self
  end.

(** The arguments of [main] that reach the analyzer: the URLs, each
    with the post texts its page yields, and the two flags. *)
Record args : Type := Args {
  arg_urls : list (string * list string);
  arg_load_db : bool;
  arg_save_db : bool
}.

(** [main] up to the merge: a fresh analyzer, the optional load, the
    URLs in order, the optional merge.  Loading and merging open a
    connection each, with its own faults. *)
Definition main (load_faults save_faults : nat → option py_exception)
    (a : args) (db : database) : analyzer * database * outcome :=
  let db := _init_db db in
  let self := init in
  let self := if arg_load_db a then load_from_db load_faults self db else self in
  let self :=
    foldl (λ self page, scrape_site page.1 page.2 self) self (arg_urls a) in
  if arg_save_db a then _update_db save_faults self db
  else (self, db, Returned).

(** The post texts of a run: those of the pages at supported URLs. *)
Definition run_posts (urls : list (string * list string)) : list string :=
  flat_map (λ page, match site_of page.1 with
                    | Some _ => page.2
                    | None => []
                    end) urls.

(** ** Report and CSV

    Both read the mappings through [items()], in the order the keys
    were first written.  For [technologies] that is the order of
    [__init__], since no key is added or removed afterwards; for the
    three [defaultdict]s the order depends on the posts seen, and the
    items are passed in as lists. *)

(** [sorted(items, key=lambda x: x[1], reverse=True)]: by count, the
    largest first; the sort is stable, so items with equal counts keep
    the order they had. *)
Fixpoint insert_desc (x : string * Z) (l : list (string * Z))
    : list (string * Z) :=
  match l with
  | [] => [x]
  | y :: l' => if y.2 <=? x.2 then x :: l else y :: insert_desc x l'
  end.

Definition sorted_desc (l : list (string * Z)) : list (string * Z) :=
  foldr insert_desc [] l.

(** [self.technologies.items()]. *)
Definition technologies_items (self : analyzer) : list (string * Z) :=
  omap (λ tech, (λ count, (tech, count)) <$> technologies self !! tech)
    vocabulary.

(** The technologies [generate_report] lists: of the first five by
    count, those with a count above 0. *)
Definition report_technologies (self : analyzer) : list (string * Z) :=
  filter (λ item, 0 < item.2) (take 5 (sorted_desc (technologies_items self))).

(** A line of the report before it is formatted: a fixed heading, the
    number of posts, or an item with its count. *)
Inductive report_line : Type :=
| Heading (text : string)
| TotalPosts (n : nat)
| Mentions (key : string) (count : Z).

(** [generate_report()], with the items of [locations] and
    [salary_ranges]. *)
Definition generate_report (self : analyzer)
    (location_items salary_items : list (string * Z)) : list report_line :=
  [Heading "=== Job Market Analysis Report ===";
   TotalPosts (length (job_posts self));
   Heading "Top Technologies:"]
  ++ map (λ item, Mentions item.1 item.2) (report_technologies self)
  ++ match location_items with
     | [] => []
     | _ :: _ =>
         Heading "Top Locations:"
         :: map (λ item, Mentions item.1 item.2)
              (take 3 (sorted_desc location_items))
     end
  ++ match salary_items with
     | [] => []
     | _ :: _ =>
         Heading "Salary Ranges Mentioned:"
         :: map (λ item, Mentions ("$" +:+ item.1) item.2)
              (take 3 (sorted_desc salary_items))
     end.




(** ** Post texts

    The text each scraper builds for a card, from the fields it read
    off the page (already lowercased, and stripped where the scraper
    strips them). *)

(** [scrape_linkedin]: [f"{title} at {company} in {location}"]. *)
Definition linkedin_post_text (title company location : string) : string :=
  title +:+ " at " +:+ company +:+ " in " +:+ location.

(** [scrape_indeed]: [f"{title} at {company} in {location}. {snippet}"]. *)
Definition indeed_post_text (title company location snippet : string) : string :=
  title +:+ " at " +:+ company +:+ " in " +:+ location +:+ ". " +:+ snippet.

(** ** Location phrases

    [location_phrase_at b s]: the text [s], with [b] the character
    before it, begins with a location phrase, which is an anchor phrase
    not preceded by a word character (a letter, a digit or [_]), then
    at least one whitespace character, then at least one letter,
    whitespace character or comma.  This is what the location pattern
    asks of the text at the place where it matches. *)
Definition location_phrase_at (b : option ascii) (s : string) : Prop :=
  ∃ a ws run tail,
    s = a +:+ ws +:+ run +:+ tail
    ∧ a ∈ location_anchors
    ∧ Re.wordish b = false
    ∧ ws ≠ "" ∧ Str.all Char.isspace ws = true
    ∧ run ≠ "" ∧ Str.all location_class run = true.

(** A location phrase begins somewhere in [post]. *)
Definition has_location_phrase (post : string) : Prop :=
  ∃ pre s, post = pre +:+ s ∧ location_phrase_at (Str.last_char None pre) s.

(** * Properties *)

(** ** Counters *)

Lemma lookup_incr (key j : string) (d : gmap string Z) :
  incr key d !! j
  = if decide (key = j) then Some (count_of key d + 1) else d !! j.
Proof. unfold incr, count_of. apply lookup_insert. Qed.

Lemma count_of_incr (key j : string) (d : gmap string Z) :
  count_of j (incr key d)
  = count_of j d + (if decide (key = j) then 1 else 0).
Proof.
  unfold count_of at 1. rewrite lookup_incr.
  destruct (decide (key = j)) as [->|]; simpl; [reflexivity|].
  unfold count_of. lia.
Qed.

Lemma incr_comm (a b : string) (d : gmap string Z) :
  incr a (incr b d) = incr b (incr a d).
Proof.
  apply map_eq. intros j. rewrite !lookup_incr, !count_of_incr.
  destruct (decide (a = j)), (decide (b = j)); subst;
    repeat case_decide; try congruence; f_equal; lia.
Qed.

Lemma count_all_incr (key : string) (l : list string) (d : gmap string Z) :
  count_all l (incr key d) = incr key (count_all l d).
Proof.
  revert d. induction l as [|x l IH]; intros d; simpl; [reflexivity|].
  unfold count_all in *. simpl. rewrite incr_comm. apply IH.
Qed.

Lemma count_all_comm (l1 l2 : list string) (d : gmap string Z) :
  count_all l1 (count_all l2 d) = count_all l2 (count_all l1 d).
Proof.
  revert d. induction l1 as [|x l1 IH]; intros d; [reflexivity|].
  change (count_all (x :: l1) ?e) with (count_all l1 (incr x e)).
  rewrite <- IH. f_equal. symmetry. apply count_all_incr.
Qed.

Lemma count_of_count_all_ge (l : list string) (d : gmap string Z) (j : string) :
  count_of j d <= count_of j (count_all l d).
Proof.
  revert d. induction l as [|x l IH]; intros d; [apply Z.le_refl|].
  change (count_all (x :: l) d) with (count_all l (incr x d)).
  etrans; [|apply IH]. rewrite count_of_incr. case_decide; lia.
Qed.

Lemma count_first_comm (m1 m2 : list (string * string)) (d : gmap string Z) :
  count_first m1 (count_first m2 d) = count_first m2 (count_first m1 d).
Proof. destruct m1, m2; simpl; try reflexivity. apply incr_comm. Qed.

Lemma lookup_count_technologies (ws : gset string) (techs : gmap string Z)
    (tech : string) :
  count_technologies ws techs !! tech
  = (λ n, if bool_decide (tech ∈ ws) then n + 1 else n) <$> techs !! tech.
Proof.
  unfold count_technologies. rewrite map_lookup_imap.
  destruct (techs !! tech); reflexivity.
Qed.

Lemma count_technologies_comm (w1 w2 : gset string) (techs : gmap string Z) :
  count_technologies w1 (count_technologies w2 techs)
  = count_technologies w2 (count_technologies w1 techs).
Proof.
  apply map_eq. intros t. rewrite !lookup_count_technologies.
  destruct (techs !! t); simpl; [|reflexivity].
  f_equal. repeat case_bool_decide; lia.
Qed.

Lemma _analyze_post_comm (p q : string) (self : analyzer) :
  _analyze_post p (_analyze_post q self) = _analyze_post q (_analyze_post p self).
Proof.
  unfold _analyze_post. simpl. f_equal.
  - apply count_technologies_comm.
  - apply count_first_comm.
  - apply count_all_comm.
  - apply count_first_comm.
Qed.

Lemma analyze_all_cons (p : string) (posts : list string) (self : analyzer) :
  analyze_all (p :: posts) self = analyze_all posts (_analyze_post p self).
Proof. reflexivity. Qed.

Lemma analyze_all_step (p : string) (posts : list string) (self : analyzer) :
  analyze_all posts (_analyze_post p self)
  = _analyze_post p (analyze_all posts self).
Proof.
  revert self. induction posts as [|q posts IH]; intros self; [reflexivity|].
  rewrite !analyze_all_cons, _analyze_post_comm. apply IH.
Qed.

(** ** The matcher *)

Lemma contains_eat (a s : string) :
  is_Some (Str.eat a s) → Str.contains a s = true.
Proof. intros [r Hr]. destruct s; simpl; rewrite Hr; reflexivity. Qed.

Lemma contains_later (a : string) (c : ascii) (s : string) :
  Str.contains a s = true → Str.contains a (String c s) = true.
Proof.
  intros H. cbn [Str.contains].
  destruct (Str.eat a (String c s)); [reflexivity|exact H].
Qed.

(** A match of an alternation of literals starts with one of them. *)
Lemma run_alts_inv {A} (l : list string) (p : Re.pos) (k : Re.pos → option A) :
  l ≠ [] → is_Some (Re.run (Re.alts l) p k) →
  ∃ a, a ∈ l ∧ is_Some (Str.eat a (Re.rest p)).
Proof.
  induction l as [|a l IH]; intros Hne Hrun; [congruence|].
  destruct l as [|b l].
  - simpl in Hrun. exists a. split; [left|].
    destruct (Str.eat a (Re.rest p)); [eauto|destruct Hrun; discriminate].
  - change (Re.alts (a :: b :: l)) with (Re.Alt (Re.Lit a) (Re.alts (b :: l))) in Hrun.
    simpl in Hrun. destruct (Str.eat a (Re.rest p)) as [s'|] eqn:Ha.
    + exists a. split; [left|eauto].
    + destruct IH as (a' & Hin & Heat); [discriminate|exact Hrun|].
      exists a'. split; [right; exact Hin|exact Heat].
Qed.

(** A pattern [\b(a1|...|an)...] only matches where an anchor starts. *)
Lemma match_at_anchor_inv (l : list string) (r : Re.regex) (b : option ascii)
    (s : string) :
  l ≠ [] →
  is_Some (Re.match_at (Re.Seq Re.WordB (Re.Seq (Re.Group 1 (Re.alts l)) r)) b s) →
  ∃ a, a ∈ l ∧ is_Some (Str.eat a s).
Proof.
  intros Hne H. unfold Re.match_at in H. simpl in H.
  destruct (Re.at_boundary _); [|destruct H; discriminate].
  apply run_alts_inv in H; [exact H|exact Hne].
Qed.

(** Whatever holds wherever the pattern matches, and is kept when the
    subject is extended to the left, holds of a subject with a match. *)
Lemma scan_nonempty_inv (r : Re.regex) (P : string → Prop) :
  (∀ c s, P s → P (String c s)) →
  (∀ b s, is_Some (Re.match_at r b s) → P s) →
  ∀ s b n, Re.scan r b s n ≠ [] → P s.
Proof.
  intros Hext Hm. induction s as [|c s IH]; intros b n H.
  - destruct n; simpl in H; [|congruence].
    destruct (Re.match_at r b "") eqn:E; [|congruence].
    apply (Hm b). rewrite E. eauto.
  - destruct n; simpl in H.
    + destruct (Re.match_at r b (String c s)) eqn:E.
      * apply (Hm b). rewrite E. eauto.
      * apply Hext. eapply IH. exact H.
    + apply Hext. eapply IH. exact H.
Qed.

Lemma findall2_anchor (l : list string) (r : Re.regex) (post : string) :
  l ≠ [] →
  Re.findall2 (Re.Seq Re.WordB (Re.Seq (Re.Group 1 (Re.alts l)) r)) post ≠ [] →
  ∃ a, a ∈ l ∧ Str.contains a post = true.
Proof.
  intros Hne H. unfold Re.findall2, Re.finditer in H.
  assert (Hs : Re.scan (Re.Seq Re.WordB (Re.Seq (Re.Group 1 (Re.alts l)) r))
                 None post 0 ≠ []).
  { intros E. apply H. rewrite E. reflexivity. }
  revert Hs.
  apply (scan_nonempty_inv _ (λ s, ∃ a, a ∈ l ∧ Str.contains a s = true)).
  - intros c s (a & Hin & Hc). exists a. split; [exact Hin|].
    apply contains_later, Hc.
  - intros b s Hm. apply match_at_anchor_inv in Hm; [|exact Hne].
    destruct Hm as (a & Hin & He). exists a. split; [exact Hin|].
    apply contains_eat, He.
Qed.

(** A post that contains no anchor phrase has no location match. *)
Lemma no_anchor_no_location (post : string) :
  (∀ a, a ∈ location_anchors → Str.contains a post = false) →
  Re.findall2 location_pattern post = [].
Proof.
  intros Hno. destruct (Re.findall2 location_pattern post) eqn:E; [reflexivity|].
  destruct (findall2_anchor location_anchors
              (Re.Seq (Re.Rep Char.isspace 1 None)
                 (Re.Group 2 (Re.Rep location_class 1 None))) post)
    as (a & Hin & Hc); [discriminate| |].
  - change (Re.findall2 location_pattern post ≠ []). rewrite E. discriminate.
  - rewrite (Hno a Hin) in Hc. discriminate.
Qed.

(** ** Tokens *)

Lemma elem_of_words (t post : string) :
  t ∈ words post ↔ ∃ w, w ∈ Str.split post ∧ Str.strip_chars strip_set w = t.
Proof.
  unfold words. rewrite elem_of_list_to_set, list_elem_of_In, in_map_iff.
  split; intros (w & H1 & H2); exists w.
  - split; [apply list_elem_of_In, H2|exact H1].
  - split; [exact H2|apply list_elem_of_In, H1].
Qed.

(** A technology whose name is a token of the post gains exactly 1,
    however often the token occurs; any other technology keeps its
    count; no key is added or removed. *)
Lemma technologies_analyze (post tech : string) (self : analyzer) :
  technologies (_analyze_post post self) !! tech
  = (λ n, if bool_decide (tech ∈ words post) then n + 1 else n)
      <$> technologies self !! tech.
Proof. apply lookup_count_technologies. Qed.

(** ** Salary extraction *)

(** C1 (as amended).  For the post
    [offering $120k or $95,000 depending on experience] the salary
    pattern matches once: [re.findall] returns the single key [120k],
    [salary_ranges] gains 1 at [120k] and nothing at [95,000], whose
    text has two digits before the comma where the pattern asks for
    three. *)
Theorem salary_example_one_signal (self : analyzer) :
  let post := "offering $120k or $95,000 depending on experience" in
  Re.findall1 salary_pattern post = ["120k"]
  ∧ salary_ranges (_analyze_post post self) = incr "120k" (salary_ranges self)
  ∧ count_of "120k" (salary_ranges (_analyze_post post self))
    = count_of "120k" (salary_ranges self) + 1
  ∧ salary_ranges (_analyze_post post self) !! "95,000"
    = salary_ranges self !! "95,000".
Proof.
  intros post.
  assert (E : Re.findall1 salary_pattern post = ["120k"]) by (vm_compute; reflexivity).
  assert (S : salary_ranges (_analyze_post post self) = incr "120k" (salary_ranges self)).
  { change (salary_ranges (_analyze_post post self))
      with (count_all (Re.findall1 salary_pattern post) (salary_ranges self)).
    rewrite E. reflexivity. }
  split; [exact E|]. split; [exact S|]. split; rewrite S.
  - rewrite count_of_incr. rewrite decide_True by reflexivity. reflexivity.
  - rewrite lookup_incr. rewrite decide_False by discriminate. reflexivity.
Qed.

(** C1 (as stated) fails: on a fresh analyzer the post does not yield
    the two signals [120k] and [95,000]; no count is recorded for
    [95,000]. *)
Lemma salary_example_not_two_signals :
  let post := "offering $120k or $95,000 depending on experience" in
  Re.findall1 salary_pattern post ≠ ["120k"; "95,000"]
  ∧ salary_ranges (_analyze_post post init) !! "95,000" = None
  ∧ salary_ranges (_analyze_post post init)
    ≠ incr "95,000" (incr "120k" (salary_ranges init)).
Proof.
  intros post. split; [vm_compute; discriminate|].
  assert (N : salary_ranges (_analyze_post post init) !! "95,000" = None)
    by (vm_compute; reflexivity).
  split; [exact N|].
  intros E. rewrite E, lookup_incr in N.
  rewrite decide_True in N by reflexivity. discriminate.
Qed.

(** A grouped figure with three digits before the comma is matched, and
    every match of a post is counted. *)
Lemma salary_grouped_three_digits :
  Re.findall1 salary_pattern "offering $120k or $195,000 or $120k"
  = ["120k"; "195,000"; "120k"].
Proof. vm_compute. reflexivity. Qed.

(** ** Technology tokens *)

(** C3.  Technology matching is by whole token and at most one
    increment per technology per post: the post [golang] leaves the
    count of [go] as it is, the post [go go] and any post with the
    token [go] add exactly 1 to it; in general a post adds 1 to a
    technology when its name is among the post's tokens and 0
    otherwise. *)
Theorem exact_token_go (self : analyzer) (n : Z) :
  technologies self !! "go" = Some n →
  technologies (_analyze_post "golang" self) !! "go" = Some n
  ∧ technologies (_analyze_post "go go" self) !! "go" = Some (n + 1)
  ∧ (∀ post, "go" ∈ words post →
       technologies (_analyze_post post self) !! "go" = Some (n + 1))
  ∧ (∀ post tech m, technologies self !! tech = Some m →
       technologies (_analyze_post post self) !! tech
       = Some (if bool_decide (tech ∈ words post) then m + 1 else m)).
Proof.
  intros Hgo.
  assert (G : ∀ post tech m, technologies self !! tech = Some m →
       technologies (_analyze_post post self) !! tech
       = Some (if bool_decide (tech ∈ words post) then m + 1 else m)).
  { intros post tech m H. rewrite technologies_analyze, H. reflexivity. }
  split; [|split; [|split; [|exact G]]].
  - rewrite (G _ _ _ Hgo).
    replace (bool_decide ("go" ∈ words "golang")) with false
      by (vm_compute; reflexivity).
    reflexivity.
  - rewrite (G _ _ _ Hgo).
    replace (bool_decide ("go" ∈ words "go go")) with true
      by (vm_compute; reflexivity).
    reflexivity.
  - intros post Hin. rewrite (G _ _ _ Hgo).
    rewrite bool_decide_eq_true_2 by exact Hin. reflexivity.
Qed.

Lemma exact_token_go_witness :
  technologies init !! "go" = Some 0
  ∧ technologies (_analyze_post "golang" init) !! "go" = Some 0
  ∧ technologies (_analyze_post "go go" init) !! "go" = Some (0 + 1).
Proof.
  split; [reflexivity|].
  pose proof (exact_token_go init 0 eq_refl) as (H1 & H2 & _).
  split; [exact H1|exact H2].
Defined.

(** ** Stripping *)

Lemma lstrip_decomp (p : ascii → bool) (s : string) :
  ∃ pre, s = pre +:+ Str.lstrip p s ∧ Str.all p pre = true.
Proof.
  induction s as [|c s (pre & E & Hp)]; simpl.
  - exists EmptyString. split; reflexivity.
  - destruct (p c) eqn:Hc.
    + exists (String c pre). split; [exact (f_equal (String c) E)|].
      simpl. rewrite Hc. exact Hp.
    + exists EmptyString. split; reflexivity.
Qed.

Lemma lstrip_first (p : ascii → bool) (s : string) (c : ascii) :
  Str.first_char (Str.lstrip p s) = Some c → p c = false.
Proof.
  induction s as [|d s IH]; simpl; [discriminate|].
  destruct (p d) eqn:Hd; [exact IH|]. simpl. intros [= <-]. exact Hd.
Qed.

Lemma rstrip_decomp (p : ascii → bool) (s : string) :
  ∃ suf, s = Str.rstrip p s +:+ suf ∧ Str.all p suf = true.
Proof.
  induction s as [|c s (suf & E & Hp)]; simpl.
  - exists EmptyString. split; reflexivity.
  - destruct (Str.rstrip p s) as [|d r] eqn:Hr; simpl.
    + destruct (p c) eqn:Hc.
      * exists (String c suf). simpl in E. subst s. simpl.
        rewrite Hc, Hp. split; reflexivity.
      * exists suf. simpl in *. subst s. split; [reflexivity|exact Hp].
    + exists suf. rewrite E at 1. split; [reflexivity|exact Hp].
Qed.

Lemma last_char_cons (b : option ascii) (c : ascii) (s : string) :
  Str.last_char b (String c s) = Str.last_char (Some c) s.
Proof. reflexivity. Qed.

Lemma last_char_nonempty (b b' : option ascii) (c : ascii) (s : string) :
  Str.last_char b (String c s) = Str.last_char b' (String c s).
Proof. reflexivity. Qed.

Lemma rstrip_last (p : ascii → bool) (s : string) (c : ascii) :
  Str.last_char None (Str.rstrip p s) = Some c → p c = false.
Proof.
  induction s as [|d s IH]; simpl; [discriminate|].
  destruct (Str.rstrip p s) as [|e r] eqn:Hr; simpl.
  - destruct (p d) eqn:Hd; simpl; [discriminate|]. intros [= <-]. exact Hd.
  - intros H. apply IH. exact H.
Qed.

Lemma rstrip_first (p : ascii → bool) (s : string) (c : ascii) :
  Str.first_char (Str.rstrip p s) = Some c → Str.first_char s = Some c.
Proof.
  destruct s as [|d s]; simpl; [discriminate|].
  destruct (Str.is_empty (Str.rstrip p s) && p d); simpl; [discriminate|auto].
Qed.

(** [strip] removes a prefix and a suffix made of characters of the
    set, and what is left neither starts nor ends with one. *)
Lemma strip_by_spec (p : ascii → bool) (w : string) :
  (∃ pre suf, w = pre +:+ Str.strip_by p w +:+ suf
              ∧ Str.all p pre = true ∧ Str.all p suf = true)
  ∧ (∀ c, Str.first_char (Str.strip_by p w) = Some c → p c = false)
  ∧ (∀ c, Str.last_char None (Str.strip_by p w) = Some c → p c = false).
Proof.
  unfold Str.strip_by. split; [|split].
  - destruct (lstrip_decomp p w) as (pre & E1 & H1).
    destruct (rstrip_decomp p (Str.lstrip p w)) as (suf & E2 & H2).
    exists pre, suf. rewrite <- E2. auto.
  - intros c H. apply rstrip_first in H. eapply lstrip_first, H.
  - apply rstrip_last.
Qed.

Lemma member_elem_of (c : ascii) (chars : string) :
  Char.member c chars = true ↔ c ∈ list_ascii_of_string chars.
Proof.
  induction chars as [|d chars IH]; cbn [Char.member list_ascii_of_string].
  - split; [discriminate|]. intros H. apply elem_of_nil in H. destruct H.
  - rewrite elem_of_cons, <- IH. destruct (Ascii.eqb_spec c d) as [->|Hne].
    + split; [left; reflexivity|reflexivity].
    + cbn [orb]. split; [right; assumption|].
      intros [E|H]; [destruct (Hne E)|exact H].
Qed.

(** C5.  Tokens lose only characters of the strip set, and only at
    their ends; [+] and [#] are not in the set, so [c++] and [c#] stay
    whole.  A post with the token [c++] adds 1 to the count of [c++];
    the count of [c] is not touched by the token [c++], and an
    analyzer without a [c] entry (as [__init__] builds it) still has
    none after any post.  The strip set is the fifteen characters
    [. , / : ; ! @ ( ) [ ] { } '] and the double quote; every one of
    them is removed from both ends of a token, so a stripped token
    neither starts nor ends with one, and the token [(c++),] is
    counted as [c++]. *)
Theorem punctuation_survival (self : analyzer) (post : string) (n : Z) :
  "c++" ∈ words post →
  technologies self !! "c++" = Some n →
  technologies (_analyze_post post self) !! "c++" = Some (n + 1)
  ∧ (technologies self !! "c" = None →
     technologies (_analyze_post post self) !! "c" = None)
  ∧ ("c" ∉ words post →
     technologies (_analyze_post post self) !! "c" = technologies self !! "c")
  ∧ ("c" ∉ words "c++")
  ∧ technologies init !! "c" = None
  ∧ (∀ w, ∃ pre suf,
       w = pre +:+ Str.strip_chars strip_set w +:+ suf
       ∧ Str.all (λ c, Char.member c strip_set) pre = true
       ∧ Str.all (λ c, Char.member c strip_set) suf = true)
  ∧ Char.member "+" strip_set = false
  ∧ Char.member "#" strip_set = false
  ∧ Str.strip_chars strip_set "c++" = "c++"
  ∧ Str.strip_chars strip_set "c#" = "c#"
  ∧ (∀ c, Char.member c strip_set = true
          ↔ c ∈ [ "."; ","; "/"; ":"; ";"; "!"; "@"; "("; ")"; "["; "]"; "{"; "}";
                  "'"; ascii_of_nat 34 ]%char)
  ∧ (∀ w c, Str.first_char (Str.strip_chars strip_set w) = Some c →
            Char.member c strip_set = false)
  ∧ (∀ w c, Str.last_char None (Str.strip_chars strip_set w) = Some c →
            Char.member c strip_set = false)
  ∧ Str.strip_chars strip_set "(c++)," = "c++"
  ∧ words "we use (c++), daily" = {[ "we"; "use"; "c++"; "daily" ]}
  ∧ technologies (_analyze_post "we use (c++), daily" self) !! "c++" = Some (n + 1)
  ∧ (technologies self !! "c" = None →
     technologies (_analyze_post "we use (c++), daily" self) !! "c" = None).
Proof.
  intros Hin Hn.
  assert (Hw : words "we use (c++), daily" = {[ "we"; "use"; "c++"; "daily" ]}).
  { unfold words. vm_compute Str.split. cbn [map].
    vm_compute (Str.strip_chars strip_set "we").
    vm_compute (Str.strip_chars strip_set "use").
    vm_compute (Str.strip_chars strip_set "(c++),").
    vm_compute (Str.strip_chars strip_set "daily").
    cbn [list_to_set foldr]. set_solver. }
  repeat apply conj; try reflexivity; try exact Hw.
  - rewrite technologies_analyze, Hn. simpl.
    rewrite bool_decide_eq_true_2 by exact Hin. reflexivity.
  - intros Hc. rewrite technologies_analyze, Hc. reflexivity.
  - intros Hc. rewrite technologies_analyze.
    rewrite bool_decide_eq_false_2 by exact Hc.
    destruct (technologies self !! "c"); reflexivity.
  - apply (bool_decide_eq_false_1 ("c" ∈ words "c++")). vm_compute. reflexivity.
  - intros w. apply (strip_by_spec (λ c, Char.member c strip_set) w).
  - intros c. exact (member_elem_of c strip_set).
  - intros w. apply (strip_by_spec (λ c, Char.member c strip_set) w).
  - intros w. apply (strip_by_spec (λ c, Char.member c strip_set) w).
  - rewrite technologies_analyze, Hn. simpl.
    rewrite bool_decide_eq_true_2; [reflexivity|]. rewrite Hw. set_solver.
  - intros Hc. rewrite technologies_analyze, Hc. reflexivity.
Qed.

Lemma punctuation_survival_witness :
  "c++" ∈ words "senior c++ developer, (c++/python)."
  ∧ technologies init !! "c++" = Some 0
  ∧ technologies (_analyze_post "senior c++ developer, (c++/python)." init) !! "c++"
    = Some (0 + 1).
Proof.
  assert (H : "c++" ∈ words "senior c++ developer, (c++/python).").
  { apply (bool_decide_eq_true_1 ("c++" ∈ words "senior c++ developer, (c++/python).")).
    vm_compute. reflexivity. }
  split; [exact H|]. split; [reflexivity|].
  exact (proj1 (punctuation_survival init _ 0 H eq_refl)).
Defined.

(** ** Location extraction *)

(** Several anchor matches in one post still give one signal, the
    first. *)
Lemma location_two_matches_one_signal (self : analyzer) :
  Re.findall2 location_pattern "join in berlin. based in paris"
  = [("in", "berlin"); ("based in", "paris")]
  ∧ locations (_analyze_post "join in berlin. based in paris" self)
    = incr "berlin" (locations self).
Proof.
  assert (E : Re.findall2 location_pattern "join in berlin. based in paris"
              = [("in", "berlin"); ("based in", "paris")])
    by (vm_compute; reflexivity).
  split; [exact E|].
  change (locations (_analyze_post ?p self))
    with (count_first (Re.findall2 location_pattern p) (locations self)).
  rewrite E. reflexivity.
Qed.

(** ** Order of posts *)

(** C6.  Analysing the posts of a list in any order gives the same
    technology, location, salary and title counters. *)
Theorem order_independence (posts posts' : list string) (self : analyzer) :
  Permutation posts posts' →
  technologies (analyze_all posts self) = technologies (analyze_all posts' self)
  ∧ locations (analyze_all posts self) = locations (analyze_all posts' self)
  ∧ salary_ranges (analyze_all posts self) = salary_ranges (analyze_all posts' self)
  ∧ job_titles (analyze_all posts self) = job_titles (analyze_all posts' self).
Proof.
  intros Hperm.
  assert (E : analyze_all posts self = analyze_all posts' self).
  { revert self. induction Hperm as [|x l l' _ IH|x y l|l l' l'' _ IH1 _ IH2];
      intros self.
    - reflexivity.
    - rewrite !analyze_all_cons. apply IH.
    - rewrite !analyze_all_cons, _analyze_post_comm. reflexivity.
    - rewrite IH1. apply IH2. }
  rewrite E. repeat split.
Qed.

Lemma order_independence_witness :
  Permutation ["python in berlin"; "seeking go developer $120k"]
              ["seeking go developer $120k"; "python in berlin"]
  ∧ locations (analyze_all ["python in berlin"; "seeking go developer $120k"] init)
    = locations (analyze_all ["seeking go developer $120k"; "python in berlin"] init).
Proof.
  split; [apply perm_swap|].
  exact (proj1 (proj2 (order_independence _ _ init (perm_swap _ _ [])))).
Defined.

(** ** The store: calls and faults *)

Lemma first_fault_app (f : nat → option py_exception) (n a b : nat) :
  first_fault f n (a + b)
  = match first_fault f n a with
    | Some e => Some e
    | None => first_fault f (n + a) b
    end.
Proof.
  revert n. induction a as [|a IH]; intros n; simpl.
  - rewrite Nat.add_0_r. reflexivity.
  - destruct (f n); [reflexivity|]. rewrite IH.
    replace (S n + a)%nat with (n + S a)%nat by lia. reflexivity.
Qed.

Lemma first_fault_sound (f : nat → option py_exception) (n k : nat)
    (e : py_exception) :
  first_fault f n k = Some e → ∃ i, f i = Some e.
Proof.
  revert n. induction k as [|k IH]; intros n; simpl; [discriminate|].
  destruct (f n) eqn:E; [intros [= <-]; eauto|apply IH].
Qed.

Lemma first_fault_no_faults (n k : nat) : first_fault no_faults n k = None.
Proof. revert n. induction k; intros n; simpl; auto. Qed.

(** A loop of [execute]s runs up to the first failing call. *)
Lemma for_each_execute {X} (f : nat → option py_exception) (g : X → statement)
    (body : X → sql unit) (l : list X) (c : connection) :
  (∀ x c, body x c = execute f (g x) c) →
  for_each l body c
  = match first_fault f (calls c) (length l) with
    | Some e => inl e
    | None =>
        inr ((), Connection (calls c + length l)
                   (foldl (λ d x, apply_statement (g x) d) (data c) l))
    end.
Proof.
  intros Hbody. revert c. induction l as [|x l IH]; intros [n d]; simpl.
  - unfold sql_ret. rewrite Nat.add_0_r. reflexivity.
  - unfold sql_bind. rewrite Hbody. unfold execute. simpl.
    destruct (f n); [reflexivity|]. rewrite IH. simpl.
    destruct (first_fault f (S n) (length l)); [reflexivity|].
    do 3 f_equal. lia.
Qed.

Lemma foldl_upsert_table (t t' : table) (l : list (string * Z)) (db : database) :
  get_table t' (foldl (λ d x, apply_statement (Upsert t x.1 x.2) d) db l)
  = if decide (t = t') then upsert_all l (get_table t' db) else get_table t' db.
Proof.
  revert db. induction l as [|[k v] l IH]; intros db; simpl.
  - destruct (decide (t = t')); reflexivity.
  - rewrite IH. destruct (decide (t = t')) as [<-|Hne].
    + destruct t; reflexivity.
    + destruct t, t'; first [exfalso; apply Hne; reflexivity|reflexivity].
Qed.

Lemma foldl_upsert_posts (t : table) (l : list (string * Z)) (db : database) :
  tbl_job_posts (foldl (λ d x, apply_statement (Upsert t x.1 x.2) d) db l)
  = tbl_job_posts db.
Proof.
  revert db. induction l as [|[k v] l IH]; intros db; simpl; [reflexivity|].
  rewrite IH. destruct t; reflexivity.
Qed.

Lemma foldl_insert_posts (src : string) (l : list string) (db : database) :
  foldl (λ d x, apply_statement (InsertPost src x) d) db l
  = Database (tbl_technologies db) (tbl_locations db) (tbl_salaries db)
      (tbl_job_titles db) (tbl_job_posts db ++ map (λ post, (src, post)) l).
Proof.
  revert db. induction l as [|x l IH]; intros db; simpl.
  - rewrite app_nil_r. destruct db; reflexivity.
  - rewrite IH. simpl. rewrite <- app_assoc. reflexivity.
Qed.

Lemma foldl_insert_table (t : table) (src : string) (l : list string)
    (db : database) :
  get_table t (foldl (λ d x, apply_statement (InsertPost src x) d) db l)
  = get_table t db.
Proof. rewrite foldl_insert_posts. destruct t; reflexivity. Qed.

Lemma database_eq (d1 d2 : database) :
  (∀ t, get_table t d1 = get_table t d2) →
  tbl_job_posts d1 = tbl_job_posts d2 → d1 = d2.
Proof.
  intros H Hp. destruct d1, d2. simpl in *.
  pose proof (H Technologies). pose proof (H Locations).
  pose proof (H Salaries). pose proof (H JobTitles). simpl in *. congruence.
Qed.

(** The data after the five loops of [_update_db]. *)
Lemma merged_foldl (self : analyzer) (db : database) :
  foldl (λ d x, apply_statement (InsertPost "Hacker News" x) d)
    (foldl (λ d x, apply_statement (Upsert JobTitles x.1 x.2) d)
       (foldl (λ d x, apply_statement (Upsert Salaries x.1 x.2) d)
          (foldl (λ d x, apply_statement (Upsert Locations x.1 x.2) d)
             (foldl (λ d x, apply_statement (Upsert Technologies x.1 x.2) d)
                db (items (technologies self)))
             (items (locations self)))
          (items (salary_ranges self)))
       (items (job_titles self)))
    (job_posts self)
  = merged self db.
Proof.
  apply database_eq.
  - intros t. rewrite foldl_insert_table, !foldl_upsert_table.
    destruct t; reflexivity.
  - rewrite foldl_insert_posts. cbn [tbl_job_posts].
    rewrite !foldl_upsert_posts. reflexivity.
Qed.

Lemma bind_for_each {X} (f : nat → option py_exception) (g : X → statement)
    (body : X → sql unit) (l : list X) (k : sql unit) (c : connection) :
  (∀ x c, body x c = execute f (g x) c) →
  (for_each l body ;;; k) c
  = match first_fault f (calls c) (length l) with
    | Some e => inl e
    | None =>
        k (Connection (calls c + length l)
             (foldl (λ d x, apply_statement (g x) d) (data c) l))
    end.
Proof.
  intros Hbody. unfold sql_bind. rewrite (for_each_execute f g) by exact Hbody.
  destruct (first_fault f (calls c) (length l)); reflexivity.
Qed.

(** [_update_db] raises the first exception the store raises among
    the calls it makes, with the store rolled back; when no call
    fails it returns with the merged data committed. *)
Lemma _update_db_run (f : nat → option py_exception) (self : analyzer)
    (db : database) :
  _update_db f self db
  = match first_fault f 0 (merge_calls self) with
    | Some e => (self, db, Raised e)
    | None => (self, merged self db, Returned)
    end.
Proof.
  unfold _update_db, with_connection, update_body, merge_calls.
  rewrite !first_fault_app. simpl first_fault at 6.
  rewrite (bind_for_each f (λ x, Upsert Technologies x.1 x.2))
    by (intros [] ?; reflexivity).
  cbn [calls data]. rewrite !Nat.add_0_l.
  destruct (first_fault f 0 _); [reflexivity|].
  rewrite (bind_for_each f (λ x, Upsert Locations x.1 x.2))
    by (intros [] ?; reflexivity).
  cbn [calls data].
  destruct (first_fault f _ (length (items (locations self)))); [reflexivity|].
  rewrite (bind_for_each f (λ x, Upsert Salaries x.1 x.2))
    by (intros [] ?; reflexivity).
  cbn [calls data].
  destruct (first_fault f _ (length (items (salary_ranges self)))); [reflexivity|].
  rewrite (bind_for_each f (λ x, Upsert JobTitles x.1 x.2))
    by (intros [] ?; reflexivity).
  cbn [calls data].
  destruct (first_fault f _ (length (items (job_titles self)))); [reflexivity|].
  rewrite (bind_for_each f (λ x, InsertPost "Hacker News" x))
    by (intros ? ?; reflexivity).
  cbn [calls data].
  destruct (first_fault f _ (length (job_posts self))); [reflexivity|].
  unfold commit. cbn [calls data]. rewrite merged_foldl.
  destruct (f _); reflexivity.
Qed.

Lemma _update_db_no_faults (self : analyzer) (db : database) :
  _update_db no_faults self db = (self, merged self db, Returned).
Proof. rewrite _update_db_run, first_fault_no_faults. reflexivity. Qed.

(** ** The store: rows after a merge *)

Lemma lookup_upsert_add (key j : string) (count : Z) (rows : gmap string Z) :
  upsert_add key count rows !! j
  = if decide (key = j) then Some (count_of key rows + count) else rows !! j.
Proof.
  unfold upsert_add, count_of.
  destruct (rows !! key) as [stored|] eqn:E; simpl; rewrite lookup_insert;
    destruct (decide (key = j)); reflexivity.
Qed.

Lemma upsert_all_cons (k : string) (v : Z) (l : list (string * Z))
    (rows : gmap string Z) :
  upsert_all ((k, v) :: l) rows = upsert_all l (upsert_add k v rows).
Proof. reflexivity. Qed.

Lemma lookup_upsert_all_list (l : list (string * Z)) (rows : gmap string Z)
    (j : string) :
  NoDup l.*1 →
  upsert_all l rows !! j
  = match (list_to_map l : gmap string Z) !! j with
    | Some v => Some (count_of j rows + v)
    | None => rows !! j
    end.
Proof.
  revert rows. induction l as [|[k v] l IH]; intros rows Hnd.
  - reflexivity.
  - apply NoDup_cons in Hnd as [Hk Hnd].
    rewrite upsert_all_cons, (IH _ Hnd). simpl list_to_map.
    rewrite lookup_insert. destruct (decide (k = j)) as [->|Hne].
    + rewrite (not_elem_of_list_to_map_1 _ _ Hk).
      rewrite lookup_upsert_add, decide_True by reflexivity. reflexivity.
    + unfold count_of. rewrite lookup_upsert_add, decide_False by exact Hne.
      reflexivity.
Qed.

(** After the upserts for a mapping, a key of the mapping holds its
    stored count (0 when it had no row) plus the mapping's count, and
    every other row is as before. *)
Lemma lookup_upsert_all (d rows : gmap string Z) (j : string) :
  upsert_all (items d) rows !! j
  = match d !! j with
    | Some v => Some (count_of j rows + v)
    | None => rows !! j
    end.
Proof.
  unfold items. rewrite lookup_upsert_all_list by apply NoDup_fst_map_to_list.
  rewrite list_to_map_to_list. reflexivity.
Qed.

Lemma get_table_merged (t : table) (self : analyzer) (db : database) :
  get_table t (merged self db)
  = upsert_all (items (get_counter t self)) (get_table t db).
Proof. destruct t; reflexivity. Qed.

Lemma lookup_merged (t : table) (self : analyzer) (db : database) (j : string) :
  get_table t (merged self db) !! j
  = match get_counter t self !! j with
    | Some v => Some (count_of j (get_table t db) + v)
    | None => get_table t db !! j
    end.
Proof. rewrite get_table_merged. apply lookup_upsert_all. Qed.

Lemma count_of_merged (t : table) (self : analyzer) (db : database) (j : string) :
  count_of j (get_table t (merged self db))
  = count_of j (get_table t db) + count_of j (get_counter t self).
Proof.
  unfold count_of at 1. rewrite lookup_merged. unfold count_of.
  destruct (get_counter t self !! j); simpl; lia.
Qed.

(** C2.  The merge adds and never overwrites: counters with [python]
    at 3 merged into an empty store give the stored count 3, and
    counters with [python] at 2 merged into the result give 5.  In
    general each key of a mapping ends with its stored count (0 if it
    had no row) plus the mapping's count, whenever the two counts and
    their sum are 64-bit integers, and rows of other keys are kept. *)
Theorem merge_additivity (self1 self2 : analyzer) :
  technologies self1 !! "python" = Some 3 →
  technologies self2 !! "python" = Some 2 →
  let db1 := (_update_db no_faults self1 empty_db).1.2 in
  let db2 := (_update_db no_faults self2 db1).1.2 in
  tbl_technologies db1 !! "python" = Some 3
  ∧ tbl_technologies db2 !! "python" = Some 5
  ∧ tbl_technologies db2 !! "python" ≠ Some 2
  ∧ (∀ t self db key count,
       get_counter t self !! key = Some count →
       int64 count →
       int64 (count_of key (get_table t db)) →
       int64 (count_of key (get_table t db) + count) →
       get_table t (_update_db no_faults self db).1.2 !! key
       = Some (count_of key (get_table t db) + count))
  ∧ (∀ t self db key,
       get_counter t self !! key = None →
       get_table t (_update_db no_faults self db).1.2 !! key
       = get_table t db !! key).
Proof.
  intros H1 H2 db1 db2. subst db1 db2. rewrite !_update_db_no_faults. cbn [fst snd].
  assert (E1 : tbl_technologies (merged self1 empty_db) !! "python" = Some 3).
  { rewrite (lookup_merged Technologies). simpl get_counter. rewrite H1.
    reflexivity. }
  assert (E2 : tbl_technologies (merged self2 (merged self1 empty_db)) !! "python"
               = Some 5).
  { rewrite (lookup_merged Technologies). simpl get_counter. rewrite H2.
    unfold count_of.
    change (get_table Technologies (merged self1 empty_db))
      with (tbl_technologies (merged self1 empty_db)).
    rewrite E1. reflexivity. }
  split; [exact E1|]. split; [exact E2|]. split; [rewrite E2; discriminate|].
  split.
  - intros t self db key count H _ _ _. rewrite _update_db_no_faults. cbn [fst snd].
    rewrite lookup_merged, H. reflexivity.
  - intros t self db key H. rewrite _update_db_no_faults. cbn [fst snd].
    rewrite lookup_merged, H. reflexivity.
Qed.

Lemma merge_additivity_witness :
  technologies (analyze_all ["python"; "python and sql"; "python"] init) !! "python"
  = Some 3
  ∧ technologies (analyze_all ["python, go"; "(python)"] init) !! "python" = Some 2
  ∧ tbl_technologies
      (_update_db no_faults (analyze_all ["python, go"; "(python)"] init)
         (_update_db no_faults
            (analyze_all ["python"; "python and sql"; "python"] init)
            empty_db).1.2).1.2 !! "python"
    = Some 5.
Proof.
  assert (H1 : technologies
                 (analyze_all ["python"; "python and sql"; "python"] init)
               !! "python" = Some 3) by (vm_compute; reflexivity).
  assert (H2 : technologies (analyze_all ["python, go"; "(python)"] init)
               !! "python" = Some 2) by (vm_compute; reflexivity).
  split; [exact H1|]. split; [exact H2|].
  exact (proj1 (proj2 (merge_additivity _ _ H1 H2))).
Defined.

(** ** Saved posts *)

Lemma job_posts_analyze (post : string) (self : analyzer) :
  job_posts (_analyze_post post self) = job_posts self.
Proof. reflexivity. Qed.

Lemma job_posts_scrape (from : site) (posts : list string) (self : analyzer) :
  job_posts (scrape from posts self) = (job_posts self ++ posts)%list.
Proof.
  revert self. induction posts as [|p posts IH]; intros self.
  - simpl. rewrite app_nil_r. reflexivity.
  - change (scrape from (p :: posts) self)
      with (scrape from posts (scrape_post from p self)).
    rewrite IH.
    change (job_posts (scrape_post from p self)) with (job_posts self ++ [p])%list.
    rewrite <- app_assoc. reflexivity.
Qed.

(** C10.  Whatever [_update_db] appends to [job_posts] has the source
    [Hacker News]: a merge leaves the old rows in place and adds, for
    each post in memory, the row (Hacker News, post); this holds for
    the posts of every scraper, since scraping keeps the text only. *)
Theorem posts_saved_as_hacker_news (faults : nat → option py_exception)
    (self : analyzer) (db : database) :
  (∃ new, tbl_job_posts (_update_db faults self db).1.2
          = (tbl_job_posts db ++ new)%list
          ∧ Forall (λ row, row.1 = "Hacker News") new)
  ∧ tbl_job_posts (_update_db no_faults self db).1.2
    = (tbl_job_posts db ++ map (λ post, ("Hacker News", post)) (job_posts self))%list
  ∧ (∀ from posts,
       tbl_job_posts (_update_db no_faults (scrape from posts init) db).1.2
       = (tbl_job_posts db ++ map (λ post, ("Hacker News", post)) posts)%list).
Proof.
  split; [|split].
  - rewrite _update_db_run.
    destruct (first_fault faults 0 (merge_calls self)); cbn [fst snd].
    + exists []. rewrite app_nil_r. split; [reflexivity|constructor].
    + exists (map (λ post, ("Hacker News", post)) (job_posts self)).
      split; [reflexivity|]. apply Forall_forall. intros row Hin.
      apply list_elem_of_In, in_map_iff in Hin as (post & <- & _). reflexivity.
  - rewrite _update_db_no_faults. reflexivity.
  - intros from posts. rewrite _update_db_no_faults. cbn [fst snd merged tbl_job_posts].
    rewrite job_posts_scrape. reflexivity.
Qed.

(** A post scraped from Indeed is saved with the source [Hacker News]. *)
Lemma indeed_post_saved_as_hacker_news :
  tbl_job_posts
    (_update_db no_faults
       (scrape Indeed ["python developer at acme in berlin. django"] init)
       empty_db).1.2
  = [("Hacker News", "python developer at acme in berlin. django")].
Proof. vm_compute. reflexivity. Qed.

(** ** Failing store *)

Lemma first_fault_none (f : nat → option py_exception) (n k i : nat) :
  first_fault f n k = None → (n <= i < n + k)%nat → f i = None.
Proof.
  revert n. induction k as [|k IH]; intros n H Hi; [lia|].
  simpl in H. destruct (f n) eqn:E; [discriminate|].
  destruct (decide (i = n)) as [->|Hne]; [exact E|].
  apply (IH (S n)); [exact H|lia].
Qed.

(** C8 (as amended).  When a call on the store fails during the
    merge, [_update_db] raises, and what it raises is the exception of
    the store itself, the first one among the calls made (the code has
    no kind of its own for it); the analyzer is as before, the store is
    rolled back to what it was, and the same counters can be merged
    again once the store works. *)
Theorem merge_failure_propagates (faults : nat → option py_exception)
    (self : analyzer) (db : database) (e : py_exception) :
  (_update_db faults self db).2 = Raised e →
  first_fault faults 0 (merge_calls self) = Some e
  ∧ (∃ n, faults n = Some e)
  ∧ (_update_db faults self db).1 = (self, db)
  ∧ _update_db no_faults self db = (self, merged self db, Returned).
Proof.
  intros H. rewrite _update_db_run in H |- *.
  destruct (first_fault faults 0 (merge_calls self)) as [e'|] eqn:E;
    cbn [fst snd] in *; [|discriminate].
  injection H as ->.
  split; [reflexivity|]. split; [eapply first_fault_sound, E|].
  split; [reflexivity|]. apply _update_db_no_faults.
Qed.

(** Any failing call among those the merge makes ends it by raising,
    with analyzer and store as before. *)
Lemma merge_failure_raises (faults : nat → option py_exception)
    (self : analyzer) (db : database) (n : nat) :
  (n < merge_calls self)%nat → is_Some (faults n) →
  ∃ e, _update_db faults self db = (self, db, Raised e).
Proof.
  intros Hn [e He]. rewrite _update_db_run.
  destruct (first_fault faults 0 (merge_calls self)) as [e'|] eqn:E; [eauto|].
  rewrite (first_fault_none _ _ _ n E) in He by lia. discriminate.
Qed.

Lemma merge_failure_propagates_witness :
  let e := PyException "sqlite3.OperationalError" "database is locked" in
  let faults := λ n : nat, if decide (n = 3%nat) then Some e else None in
  (_update_db faults (analyze_all ["python in berlin"] init) empty_db).2 = Raised e
  ∧ (_update_db faults (analyze_all ["python in berlin"] init) empty_db).1
    = (analyze_all ["python in berlin"] init, empty_db).
Proof.
  intros e faults.
  assert (H : (_update_db faults (analyze_all ["python in berlin"] init)
                 empty_db).2 = Raised e) by (vm_compute; reflexivity).
  split; [exact H|].
  exact (proj1 (proj2 (proj2 (merge_failure_propagates faults _ _ e H)))).
Defined.

(** C8 (as stated) fails: the store's [sqlite3.OperationalError]
    reaches the caller as it is, not as a [PersistenceError]. *)
Lemma merge_failure_not_persistence_error :
  let e := PyException "sqlite3.OperationalError" "database is locked" in
  let faults := λ n : nat, if decide (n = 0%nat) then Some e else None in
  ∃ raised, (_update_db faults init empty_db).2 = Raised raised
            ∧ exc_class raised = "sqlite3.OperationalError"
            ∧ exc_class raised ≠ "PersistenceError".
Proof.
  intros e faults. exists e. split; [vm_compute; reflexivity|].
  split; [reflexivity|discriminate].
Qed.

(** ** Loading *)

Lemma lookup_load_counts_list (l : list (string * Z)) (d : gmap string Z)
    (j : string) :
  NoDup l.*1 →
  load_counts l d !! j
  = match (list_to_map l : gmap string Z) !! j with
    | Some v => Some v
    | None => d !! j
    end.
Proof.
  revert d. induction l as [|[k v] l IH]; intros d Hnd; [reflexivity|].
  apply NoDup_cons in Hnd as [Hk Hnd].
  change (load_counts ((k, v) :: l) d) with (load_counts l (<[k:=v]> d)).
  rewrite (IH _ Hnd). simpl list_to_map. rewrite !lookup_insert.
  destruct (decide (k = j)) as [->|Hne]; [|reflexivity].
  rewrite (not_elem_of_list_to_map_1 _ _ Hk). reflexivity.
Qed.

(** After loading a table, a key with a row holds the stored count and
    any other key is as before. *)
Lemma lookup_load_counts (rows d : gmap string Z) (j : string) :
  load_counts (items rows) d !! j
  = match rows !! j with
    | Some v => Some v
    | None => d !! j
    end.
Proof.
  unfold items. rewrite lookup_load_counts_list by apply NoDup_fst_map_to_list.
  rewrite list_to_map_to_list. reflexivity.
Qed.

Lemma lookup_load_technologies_list (l : list (string * Z))
    (techs : gmap string Z) (j : string) :
  NoDup l.*1 →
  load_technologies l techs !! j
  = match techs !! j with
    | Some n => Some (default n ((list_to_map l : gmap string Z) !! j))
    | None => None
    end.
Proof.
  revert techs. induction l as [|[k v] l IH]; intros techs Hnd.
  - simpl. destruct (techs !! j); reflexivity.
  - apply NoDup_cons in Hnd as [Hk Hnd].
    change (load_technologies ((k, v) :: l) techs)
      with (load_technologies l
              (if bool_decide (is_Some (techs !! k))
               then <[k:=v]> techs else techs)).
    rewrite (IH _ Hnd). simpl list_to_map. rewrite lookup_insert.
    destruct (decide (k = j)) as [->|Hne].
    + rewrite (not_elem_of_list_to_map_1 _ _ Hk).
      destruct (techs !! j) as [n|] eqn:E.
      * rewrite bool_decide_eq_true_2 by eauto.
        rewrite lookup_insert_eq. reflexivity.
      * rewrite bool_decide_eq_false_2 by (intros [? ?]; discriminate).
        rewrite E. reflexivity.
    + case_bool_decide; [rewrite lookup_insert_ne by exact Hne|]; reflexivity.
Qed.

(** Loading technologies gives a key of the analyzer the stored count
    when the table has a row for it; rows under other names are
    ignored. *)
Lemma lookup_load_technologies (rows techs : gmap string Z) (j : string) :
  load_technologies (items rows) techs !! j
  = match techs !! j with
    | Some n => Some (default n (rows !! j))
    | None => None
    end.
Proof.
  unfold items.
  rewrite lookup_load_technologies_list by apply NoDup_fst_map_to_list.
  rewrite list_to_map_to_list. reflexivity.
Qed.

Lemma load_from_db_no_faults (self : analyzer) (db : database) :
  load_from_db no_faults self db
  = Analyzer
      (load_technologies (items (tbl_technologies db)) (technologies self))
      (load_counts (items (tbl_locations db)) (locations self))
      (load_counts (items (tbl_salaries db)) (salary_ranges self))
      (load_counts (items (tbl_job_titles db)) (job_titles self))
      (map snd (tbl_job_posts db)).
Proof. reflexivity. Qed.

(** The keys of a fresh analyzer's [technologies] are the vocabulary. *)
Lemma technologies_init_keys (key : string) :
  is_Some (technologies init !! key) ↔ key ∈ vocabulary.
Proof.
  unfold init. cbn [technologies]. split.
  - intros [n Hn]. apply elem_of_list_to_map_2 in Hn.
    apply list_elem_of_In, in_map_iff in Hn as (t & [= <- _] & Hin).
    apply list_elem_of_In, Hin.
  - intros Hin. exists 0. apply elem_of_list_to_map_1.
    + rewrite <- list_fmap_compose.
      replace ((fst ∘ (λ t : string, (t, 0))) <$> vocabulary) with vocabulary
        by (vm_compute; reflexivity).
      refine (bool_decide_unpack (NoDup vocabulary) _). vm_compute. exact I.
    + apply list_elem_of_In, in_map_iff. exists key.
      split; [reflexivity|apply list_elem_of_In, Hin].
Qed.

(** A stored count that is loaded and merged back is added to itself. *)
Lemma load_update_row (t : table) (self : analyzer) (db : database)
    (key : string) (c : Z) :
  get_table t db !! key = Some c →
  (t = Technologies → is_Some (technologies self !! key)) →
  get_table t (merged (load_from_db no_faults self db) db) !! key = Some (c + c).
Proof.
  intros Hrow Hkey. rewrite lookup_merged, load_from_db_no_faults.
  unfold count_of. rewrite Hrow. cbn [default].
  destruct t; cbn [get_counter technologies locations salary_ranges job_titles];
    cbn [get_table] in Hrow.
  - destruct (Hkey eq_refl) as [n Hn].
    rewrite lookup_load_technologies, Hn, Hrow. reflexivity.
  - rewrite lookup_load_counts, Hrow. reflexivity.
  - rewrite lookup_load_counts, Hrow. reflexivity.
  - rewrite lookup_load_counts, Hrow. reflexivity.
Qed.

(** C9.  Loading from the store and merging straight back, with no
    post analysed in between, doubles the stored count of every
    technology row whose name is a key of the analyzer (the
    vocabulary), and of every location, salary and title row, as long
    as the doubled count is still a 64-bit integer; the saved posts
    are appended to themselves.  So when some such count is not 0 the
    store after the round trip differs from the store before. *)
Theorem load_then_update_doubles (self : analyzer) (db : database) :
  let db' := (_update_db no_faults (load_from_db no_faults self db) db).1.2 in
  (∀ key c, tbl_technologies db !! key = Some c →
            is_Some (technologies self !! key) →
            int64 c → int64 (c + c) →
            tbl_technologies db' !! key = Some (c + c))
  ∧ (∀ key c, tbl_locations db !! key = Some c →
              int64 c → int64 (c + c) →
              tbl_locations db' !! key = Some (c + c))
  ∧ (∀ key c, tbl_salaries db !! key = Some c →
              int64 c → int64 (c + c) →
              tbl_salaries db' !! key = Some (c + c))
  ∧ (∀ key c, tbl_job_titles db !! key = Some c →
              int64 c → int64 (c + c) →
              tbl_job_titles db' !! key = Some (c + c))
  ∧ tbl_job_posts db'
    = (tbl_job_posts db
       ++ map (λ row, ("Hacker News", row.2)) (tbl_job_posts db))%list
  ∧ ((∃ t key c, get_table t db !! key = Some c ∧ c ≠ 0
                 ∧ int64 c ∧ int64 (c + c)
                 ∧ (t = Technologies → is_Some (technologies self !! key))) →
     db' ≠ db).
Proof.
  intros db'. subst db'. rewrite _update_db_no_faults. cbn [fst snd].
  split; [|split; [|split; [|split; [|split]]]].
  - intros key c Hrow Hkey _ _.
    apply (load_update_row Technologies self db key c Hrow). intros _. exact Hkey.
  - intros key c Hrow _ _.
    apply (load_update_row Locations self db key c Hrow). discriminate.
  - intros key c Hrow _ _.
    apply (load_update_row Salaries self db key c Hrow). discriminate.
  - intros key c Hrow _ _.
    apply (load_update_row JobTitles self db key c Hrow). discriminate.
  - rewrite load_from_db_no_faults. cbn [merged tbl_job_posts job_posts].
    rewrite map_map. reflexivity.
  - intros (t & key & c & Hrow & Hc & _ & _ & Hkey) E.
    pose proof (load_update_row t self db key c Hrow Hkey) as H.
    rewrite E, Hrow in H. injection H as H. lia.
Qed.

Lemma load_then_update_doubles_witness :
  let db := Database {["python" := 3]} {["berlin" := 2]} ∅ ∅ [] in
  tbl_technologies db !! "python" = Some 3
  ∧ is_Some (technologies init !! "python")
  ∧ int64 3 ∧ int64 (3 + 3)
  ∧ tbl_technologies
      (_update_db no_faults (load_from_db no_faults init db) db).1.2 !! "python"
    = Some (3 + 3).
Proof.
  intros db.
  assert (H1 : tbl_technologies db !! "python" = Some 3) by reflexivity.
  assert (H2 : is_Some (technologies init !! "python")) by (exists 0; reflexivity).
  assert (H3 : int64 3) by (unfold int64; lia).
  assert (H4 : int64 (3 + 3)) by (unfold int64; lia).
  split; [exact H1|]. split; [exact H2|]. split; [exact H3|]. split; [exact H4|].
  exact (proj1 (load_then_update_doubles init db) "python" 3 H1 H2 H3 H4).
Defined.

(** ** Counts are never negative and never go down *)

(** Reduce the projections of analyzers and databases, nothing else. *)
Tactic Notation "fields" "in" "*" :=
  cbn [get_counter get_table technologies locations salary_ranges job_titles
       job_posts tbl_technologies tbl_locations tbl_salaries tbl_job_titles
       tbl_job_posts fst snd] in *.

Ltac fields :=
  cbn [get_counter get_table technologies locations salary_ranges job_titles
       job_posts tbl_technologies tbl_locations tbl_salaries tbl_job_titles
       tbl_job_posts fst snd].

Lemma nonneg_intro (d : gmap string Z) :
  (∀ key n, d !! key = Some n → 0 <= n) → nonneg d.
Proof. intros H. apply map_Forall_lookup. exact H. Qed.

Lemma nonneg_lookup (d : gmap string Z) (key : string) (n : Z) :
  nonneg d → d !! key = Some n → 0 <= n.
Proof. intros H. apply (map_Forall_lookup_1 _ _ _ _ H). Qed.

Lemma nonneg_count_of (d : gmap string Z) (key : string) :
  nonneg d → 0 <= count_of key d.
Proof.
  intros H. unfold count_of. destruct (d !! key) as [n|] eqn:E; simpl; [|lia].
  apply (nonneg_lookup d key n H E).
Qed.

Lemma nonneg_empty : nonneg ∅.
Proof. apply map_Forall_empty. Qed.

Lemma nonneg_incr (key : string) (d : gmap string Z) :
  nonneg d → nonneg (incr key d).
Proof.
  intros H. apply nonneg_intro. intros j n. rewrite lookup_incr.
  destruct (decide (key = j)).
  - intros [= <-]. pose proof (nonneg_count_of d key H). lia.
  - apply nonneg_lookup, H.
Qed.

Lemma nonneg_count_all (l : list string) (d : gmap string Z) :
  nonneg d → nonneg (count_all l d).
Proof.
  revert d. induction l as [|x l IH]; intros d H; [exact H|].
  apply (IH (incr x d)), nonneg_incr, H.
Qed.

Lemma nonneg_count_first (m : list (string * string)) (d : gmap string Z) :
  nonneg d → nonneg (count_first m d).
Proof. intros H. destruct m; simpl; [exact H|apply nonneg_incr, H]. Qed.

Lemma nonneg_count_technologies (ws : gset string) (techs : gmap string Z) :
  nonneg techs → nonneg (count_technologies ws techs).
Proof.
  intros H. apply nonneg_intro. intros j n. rewrite lookup_count_technologies.
  destruct (techs !! j) as [m|] eqn:E; simpl; [|discriminate].
  intros [= <-]. pose proof (nonneg_lookup techs j m H E).
  case_bool_decide; lia.
Qed.

Lemma counters_nonneg_init : counters_nonneg init.
Proof.
  intros t. unfold init. destruct t; fields; try apply nonneg_empty.
  apply nonneg_intro. intros key n Hn. apply elem_of_list_to_map_2 in Hn.
  apply list_elem_of_In, in_map_iff in Hn as (x & [= _ <-] & _). lia.
Qed.

Lemma counters_nonneg_analyze (post : string) (self : analyzer) :
  counters_nonneg self → counters_nonneg (_analyze_post post self).
Proof.
  intros H t. unfold _analyze_post. destruct t; fields.
  - apply nonneg_count_technologies, (H Technologies).
  - apply nonneg_count_first, (H Locations).
  - apply nonneg_count_all, (H Salaries).
  - apply nonneg_count_first, (H JobTitles).
Qed.

(** [_analyze_post] lowers no count. *)
Lemma analyze_monotone (post : string) (self : analyzer) (t : table)
    (key : string) :
  count_of key (get_counter t self)
  <= count_of key (get_counter t (_analyze_post post self)).
Proof.
  unfold _analyze_post. destruct t; fields.
  - unfold count_of. rewrite lookup_count_technologies.
    destruct (technologies self !! key); simpl; [|lia].
    case_bool_decide; lia.
  - destruct (Re.findall2 location_pattern post); cbn [count_first]; [lia|].
    rewrite count_of_incr. case_decide; lia.
  - apply count_of_count_all_ge.
  - destruct (Re.findall2 title_pattern post); cbn [count_first]; [lia|].
    rewrite count_of_incr. case_decide; lia.
Qed.

Lemma nonneg_upsert_all (d rows : gmap string Z) :
  nonneg d → nonneg rows → nonneg (upsert_all (items d) rows).
Proof.
  intros Hd Hr. apply nonneg_intro. intros j n. rewrite lookup_upsert_all.
  destruct (d !! j) as [v|] eqn:E.
  - intros [= <-]. pose proof (nonneg_lookup d j v Hd E).
    pose proof (nonneg_count_of rows j Hr). lia.
  - apply nonneg_lookup, Hr.
Qed.

Lemma db_nonneg_merged (self : analyzer) (db : database) :
  counters_nonneg self → db_nonneg db → db_nonneg (merged self db).
Proof.
  intros Hs Hd t. rewrite get_table_merged.
  apply nonneg_upsert_all; [apply Hs|apply Hd].
Qed.

Lemma nonneg_load_counts (rows d : gmap string Z) :
  nonneg rows → nonneg d → nonneg (load_counts (items rows) d).
Proof.
  intros Hr Hd. apply nonneg_intro. intros j n. rewrite lookup_load_counts.
  destruct (rows !! j) as [v|] eqn:E.
  - intros [= <-]. apply (nonneg_lookup rows j v Hr E).
  - apply nonneg_lookup, Hd.
Qed.

Lemma nonneg_load_technologies (rows techs : gmap string Z) :
  nonneg rows → nonneg techs → nonneg (load_technologies (items rows) techs).
Proof.
  intros Hr Ht. apply nonneg_intro. intros j n. rewrite lookup_load_technologies.
  destruct (techs !! j) as [m|] eqn:E; [|discriminate].
  intros [= <-]. destruct (rows !! j) as [v|] eqn:Ev; simpl.
  - apply (nonneg_lookup rows j v Hr Ev).
  - apply (nonneg_lookup techs j m Ht E).
Qed.

Lemma counters_nonneg_load (f : nat → option py_exception) (self : analyzer)
    (db : database) :
  counters_nonneg self → db_nonneg db → counters_nonneg (load_from_db f self db).
Proof.
  intros Hs Hd.
  pose proof (Hs Technologies) as H1. pose proof (Hs Locations) as H2.
  pose proof (Hs Salaries) as H3. pose proof (Hs JobTitles) as H4.
  pose proof (Hd Technologies) as D1. pose proof (Hd Locations) as D2.
  pose proof (Hd Salaries) as D3. pose proof (Hd JobTitles) as D4.
  fields in *. unfold load_from_db.
  repeat (match goal with
          | |- context [match f ?n with _ => _ end] => destruct (f n)
          end);
    intros t; destruct t; fields;
    auto using nonneg_load_counts, nonneg_load_technologies.
Qed.

(** Every state of a session has counts at or above 0, in memory and
    in the store. *)
Lemma step_nonneg (s s' : analyzer * database) :
  step s s' →
  counters_nonneg s.1 ∧ db_nonneg s.2 → counters_nonneg s'.1 ∧ db_nonneg s'.2.
Proof.
  intros Hstep [Hs Hd]. destruct Hstep as [f self db|from post self db|f self db];
    cbn [fst snd] in *.
  - split; [apply counters_nonneg_load; assumption|exact Hd].
  - split; [|exact Hd]. intros t. apply (counters_nonneg_analyze post _) with (t := t).
    intros t'. destruct t'; [apply (Hs Technologies)|apply (Hs Locations)
                            |apply (Hs Salaries)|apply (Hs JobTitles)].
  - rewrite _update_db_run.
    destruct (first_fault f 0 (merge_calls self)); cbn [fst snd].
    + split; assumption.
    + split; [exact Hs|apply db_nonneg_merged; assumption].
Qed.

Lemma reachable_nonneg (db0 : database) (s : analyzer * database) :
  db_nonneg db0 → reachable db0 s → counters_nonneg s.1 ∧ db_nonneg s.2.
Proof.
  intros H0 Hr. unfold reachable in Hr.
  eapply (@rtc_ind_r _ step (λ s, counters_nonneg s.1 ∧ db_nonneg s.2));
    [| |exact Hr].
  - split; [apply counters_nonneg_init|exact H0].
  - intros y z _ Hstep IH. apply (step_nonneg y z Hstep IH).
Qed.

(** C7.  In every state a session reaches from a fresh analyzer and a
    store without negative counts, the four mappings and the four
    tables hold no negative count; from there [_analyze_post] on any
    post lowers no count in memory, and [_update_db], however it ends,
    leaves the analyzer as it is and lowers no stored count. *)
Theorem counts_nonneg_and_monotone (db0 : database) (s : analyzer * database) :
  db_nonneg db0 →
  reachable db0 s →
  (counters_nonneg s.1 ∧ db_nonneg s.2)
  ∧ (∀ post, counters_nonneg (_analyze_post post s.1)
             ∧ ∀ t key, count_of key (get_counter t s.1)
                        <= count_of key (get_counter t (_analyze_post post s.1)))
  ∧ (∀ faults,
       (_update_db faults s.1 s.2).1.1 = s.1
       ∧ db_nonneg (_update_db faults s.1 s.2).1.2
       ∧ ∀ t key, count_of key (get_table t s.2)
                  <= count_of key (get_table t (_update_db faults s.1 s.2).1.2)).
Proof.
  intros H0 Hr. destruct (reachable_nonneg db0 s H0 Hr) as [Hs Hd].
  split; [split; assumption|]. split.
  - intros post. split; [apply counters_nonneg_analyze, Hs|].
    intros t key. apply analyze_monotone.
  - intros f. rewrite _update_db_run.
    destruct (first_fault f 0 (merge_calls s.1)); cbn [fst snd].
    + split; [reflexivity|]. split; [exact Hd|]. intros t key. lia.
    + split; [reflexivity|]. split; [apply db_nonneg_merged; assumption|].
      intros t key. rewrite count_of_merged.
      pose proof (nonneg_count_of (get_counter t s.1) key (Hs t)). lia.
Qed.

Lemma counts_nonneg_and_monotone_witness :
  db_nonneg empty_db
  ∧ reachable empty_db
      (_update_db no_faults (scrape_post Indeed "python in berlin" init) empty_db).1
  ∧ db_nonneg
      (_update_db no_faults (scrape_post Indeed "python in berlin" init) empty_db).1.2.
Proof.
  assert (H0 : db_nonneg empty_db) by (intros t; destruct t; apply nonneg_empty).
  assert (Hr : reachable empty_db
                 (_update_db no_faults
                    (scrape_post Indeed "python in berlin" init) empty_db).1).
  { unfold reachable. eapply rtc_l; [apply (step_scrape Indeed "python in berlin")|].
    eapply rtc_l; [apply (step_update no_faults)|]. apply rtc_refl. }
  split; [exact H0|]. split; [exact Hr|].
  exact (proj2 (proj1 (counts_nonneg_and_monotone _ _ H0 Hr))).
Defined.

(** * Further properties of the analyzer and the store *)

(** ** Title extraction *)

Lemma no_anchor_no_title (post : string) :
  (∀ a, a ∈ title_anchors → Str.contains a post = false) →
  Re.findall2 title_pattern post = [].
Proof.
  intros Hno. destruct (Re.findall2 title_pattern post) eqn:E; [reflexivity|].
  destruct (findall2_anchor title_anchors
              (Re.Seq (Re.Rep Char.isspace 1 None)
                 (Re.Seq (Re.Group 2 (Re.Rep title_class 1 None)) Re.WordB)) post)
    as (a & Hin & Hc); [discriminate| |].
  - change (Re.findall2 title_pattern post ≠ []). rewrite E. discriminate.
  - rewrite (Hno a Hin) in Hc. discriminate.
Qed.

(** X1.  A post records at most one title signal: without a match of
    the title pattern [job_titles] is left as it is, otherwise the
    count of the first match's second group, stripped, goes up by 1 and
    every other count stays.  The key is the group without the
    whitespace at its two ends: the group is the key between two runs
    of whitespace, and the key neither starts nor ends with a
    whitespace character.  In [seeking a senior engineer 5 years] the
    group ends with a blank and the key is [a senior engineer].  A
    post that contains none of the phrases [looking for], [seeking],
    [position], [role] records no title. *)
Theorem title_first_match_only (post : string) (self : analyzer) :
  let after := job_titles (_analyze_post post self) in
  match Re.findall2 title_pattern post with
  | [] => after = job_titles self
  | m :: _ =>
      let key := Str.strip (snd m) in
      after = incr key (job_titles self)
      ∧ (∀ k, count_of k after
              = count_of k (job_titles self) + (if decide (key = k) then 1 else 0))
      ∧ (∃ pre suf, snd m = pre +:+ key +:+ suf
                    ∧ Str.all Char.isspace pre = true
                    ∧ Str.all Char.isspace suf = true)
      ∧ (∀ c, Str.first_char key = Some c → Char.isspace c = false)
      ∧ (∀ c, Str.last_char None key = Some c → Char.isspace c = false)
  end
  ∧ ((∀ a, a ∈ title_anchors → Str.contains a post = false) →
     after = job_titles self)
  ∧ Re.findall2 title_pattern "seeking a senior engineer 5 years"
    = [("seeking", "a senior engineer ")]
  ∧ job_titles (_analyze_post "seeking a senior engineer 5 years" self)
    = incr "a senior engineer" (job_titles self)
  ∧ Re.findall2 title_pattern "role :  lead dev, position   data  scientist"
    = [("position", "data  scientist")]
  ∧ job_titles (_analyze_post "role :  lead dev, position   data  scientist" self)
    = incr "data  scientist" (job_titles self).
Proof.
  intros after. subst after.
  change (job_titles (_analyze_post post self))
    with (count_first (Re.findall2 title_pattern post) (job_titles self)).
  split; [|split; [|split; [|split; [|split]]]].
  - destruct (Re.findall2 title_pattern post) as [|m ms]; cbn [count_first];
      [reflexivity|]. cbv zeta.
    split; [reflexivity|]. split; [intros k; apply count_of_incr|].
    apply (strip_by_spec Char.isspace (snd m)).
  - intros Hno. rewrite (no_anchor_no_title post Hno). reflexivity.
  - vm_compute. reflexivity.
  - change (job_titles (_analyze_post ?p self))
      with (count_first (Re.findall2 title_pattern p) (job_titles self)).
    replace (Re.findall2 title_pattern "seeking a senior engineer 5 years")
      with [("seeking", "a senior engineer ")] by (vm_compute; reflexivity).
    reflexivity.
  - vm_compute. reflexivity.
  - change (job_titles (_analyze_post ?p self))
      with (count_first (Re.findall2 title_pattern p) (job_titles self)).
    replace (Re.findall2 title_pattern "role :  lead dev, position   data  scientist")
      with [("position", "data  scientist")] by (vm_compute; reflexivity).
    reflexivity.
Qed.

Lemma title_first_match_only_witness :
  (∀ a, a ∈ title_anchors → Str.contains a "python in berlin, $120k" = false)
  ∧ job_titles (_analyze_post "python in berlin, $120k" init) = job_titles init
  ∧ job_titles (_analyze_post "seeking a senior engineer 5 years" init)
    = incr "a senior engineer" (job_titles init).
Proof.
  assert (H : ∀ a, a ∈ title_anchors →
                Str.contains a "python in berlin, $120k" = false).
  { intros a Ha. unfold title_anchors in Ha.
    repeat (apply elem_of_cons in Ha as [->|Ha]; [vm_compute; reflexivity|]).
    apply elem_of_nil in Ha. destruct Ha. }
  split; [exact H|]. split.
  - exact (proj1 (proj2 (title_first_match_only "python in berlin, $120k" init)) H).
  - exact (proj1 (proj2 (proj2 (proj2
             (title_first_match_only "python in berlin, $120k" init))))).
Defined.

(** ** Keys are stripped *)

Lemma count_first_changed (m : list (string * string)) (d : gmap string Z)
    (key : string) :
  count_first m d !! key ≠ d !! key →
  ∃ x rest, m = x :: rest ∧ key = Str.strip (snd x).
Proof.
  destruct m as [|x rest]; cbn [count_first]; [congruence|].
  rewrite lookup_incr. destruct (decide (Str.strip x.2 = key)) as [<-|];
    [eauto|congruence].
Qed.

(** X2.  A location or title key that [_analyze_post] counts has no
    whitespace at either end. *)
Theorem recorded_keys_stripped (post : string) (self : analyzer) (key : string) :
  locations (_analyze_post post self) !! key ≠ locations self !! key
  ∨ job_titles (_analyze_post post self) !! key ≠ job_titles self !! key →
  (∀ c, Str.first_char key = Some c → Char.isspace c = false)
  ∧ (∀ c, Str.last_char None key = Some c → Char.isspace c = false).
Proof.
  intros H.
  assert (∃ w, key = Str.strip w) as [w ->].
  { destruct H as [H|H]; apply count_first_changed in H as (x & _ & _ & ->); eauto. }
  apply (strip_by_spec Char.isspace w).
Qed.

Lemma recorded_keys_stripped_witness :
  locations (_analyze_post "remote   berlin ,  " init) !! "berlin ,"
  ≠ locations init !! "berlin ,"
  ∧ (∀ c, Str.last_char None "berlin ," = Some c → Char.isspace c = false).
Proof.
  assert (H : locations (_analyze_post "remote   berlin ,  " init) !! "berlin ,"
              ≠ locations init !! "berlin ,") by (vm_compute; discriminate).
  split; [exact H|].
  exact (proj2 (recorded_keys_stripped _ _ _ (or_introl H))).
Defined.

(** ** Counting over a post and over a run *)

Lemma count_of_count_all (l : list string) (d : gmap string Z) (key : string) :
  count_of key (count_all l d)
  = count_of key d + Z.of_nat (length (filter (λ x, x = key) l)).
Proof.
  revert d. induction l as [|x l IH]; intros d.
  - cbn. lia.
  - change (count_all (x :: l) d) with (count_all l (incr x d)).
    rewrite IH, count_of_incr, filter_cons.
    destruct (decide (x = key)); cbn [length]; lia.
Qed.

(** X3.  Every match of the salary pattern counts: after a post, the
    count of a salary key is up by the number of times the key occurs
    among the matches of the post. *)
Theorem salary_counts_every_match (post : string) (self : analyzer)
    (key : string) :
  count_of key (salary_ranges (_analyze_post post self))
  = count_of key (salary_ranges self)
    + Z.of_nat (length (filter (λ x, x = key) (Re.findall1 salary_pattern post))).
Proof. apply count_of_count_all. Qed.

(** The same key twice in one post counts twice. *)
Lemma salary_same_key_twice (self : analyzer) :
  count_of "120k" (salary_ranges (_analyze_post "$120k, or $120k remote" self))
  = count_of "120k" (salary_ranges self) + 2.
Proof.
  change (salary_ranges (_analyze_post ?p self))
    with (count_all (Re.findall1 salary_pattern p) (salary_ranges self)).
  rewrite count_of_count_all.
  replace (Re.findall1 salary_pattern "$120k, or $120k remote")
    with ["120k"; "120k"] by (vm_compute; reflexivity).
  reflexivity.
Qed.

Lemma technologies_analyze_all (posts : list string) (self : analyzer)
    (tech : string) :
  technologies (analyze_all posts self) !! tech
  = (λ n, n + Z.of_nat (length (filter (λ post, tech ∈ words post) posts)))
      <$> technologies self !! tech.
Proof.
  revert self. induction posts as [|p posts IH]; intros self.
  - cbn. destruct (technologies self !! tech); cbn; [f_equal; lia|reflexivity].
  - rewrite analyze_all_cons, IH, technologies_analyze, filter_cons.
    destruct (technologies self !! tech) as [n|]; cbn [fmap option_fmap option_map];
      [|reflexivity].
    f_equal. destruct (decide (tech ∈ words p)).
    + rewrite bool_decide_eq_true_2 by assumption. cbn [length]. lia.
    + rewrite bool_decide_eq_false_2 by assumption. lia.
Qed.

(** X4.  Over a run, the count of a technology goes up by the number
    of posts that have its name among their tokens, whatever the order
    and however often a post repeats the name; a name that is not a key
    of [technologies] never becomes one. *)
Theorem technology_count_over_run (posts : list string) (self : analyzer)
    (tech : string) :
  match technologies self !! tech with
  | Some n =>
      technologies (analyze_all posts self) !! tech
      = Some (n + Z.of_nat (length (filter (λ post, tech ∈ words post) posts)))
  | None => technologies (analyze_all posts self) !! tech = None
  end.
Proof.
  rewrite technologies_analyze_all.
  destruct (technologies self !! tech); reflexivity.
Qed.

(** ** Scrapers *)

Lemma scrape_post_counters (from : site) (post : string) (self : analyzer)
    (t : table) :
  get_counter t (scrape_post from post self)
  = get_counter t (_analyze_post post self).
Proof. destruct t; reflexivity. Qed.

Lemma scrape_cons (from : site) (p : string) (posts : list string)
    (self : analyzer) :
  scrape from (p :: posts) self = scrape from posts (scrape_post from p self).
Proof. reflexivity. Qed.

Lemma analyze_post_counters_ext (post : string) (a b : analyzer) :
  (∀ t, get_counter t a = get_counter t b) →
  ∀ t, get_counter t (_analyze_post post a) = get_counter t (_analyze_post post b).
Proof.
  intros H t. pose proof (H Technologies). pose proof (H Locations).
  pose proof (H Salaries). pose proof (H JobTitles).
  unfold _analyze_post. destruct t; cbn in *; congruence.
Qed.

Lemma analyze_all_counters_ext (posts : list string) (a b : analyzer) :
  (∀ t, get_counter t a = get_counter t b) →
  ∀ t, get_counter t (analyze_all posts a) = get_counter t (analyze_all posts b).
Proof.
  revert a b. induction posts as [|p posts IH]; intros a b H; [exact H|].
  rewrite !analyze_all_cons. apply IH, analyze_post_counters_ext, H.
Qed.

(** X5.  The analysis does not depend on the site: a scraper call
    leaves the four mappings as [_analyze_post] on each of its posts in
    order leaves them, and appends the posts, in order, to
    [job_posts]. *)
Theorem scrape_is_analysis (from : site) (posts : list string) (self : analyzer) :
  (∀ t, get_counter t (scrape from posts self)
        = get_counter t (analyze_all posts self))
  ∧ job_posts (scrape from posts self) = (job_posts self ++ posts)%list
  ∧ job_posts (analyze_all posts self) = job_posts self.
Proof.
  split; [|split].
  - revert self. induction posts as [|p posts IH]; intros self t; [reflexivity|].
    rewrite scrape_cons, analyze_all_cons, IH.
    apply analyze_all_counters_ext. intros t'. apply scrape_post_counters.
  - apply job_posts_scrape.
  - revert self. induction posts as [|p posts IH]; intros self; [reflexivity|].
    rewrite analyze_all_cons, IH. reflexivity.
Qed.

(** ** The technology keys *)

Lemma is_Some_count_technologies (ws : gset string) (techs : gmap string Z)
    (key : string) :
  is_Some (count_technologies ws techs !! key) ↔ is_Some (techs !! key).
Proof. rewrite lookup_count_technologies. apply fmap_is_Some. Qed.

Lemma is_Some_load_technologies (rows techs : gmap string Z) (key : string) :
  is_Some (load_technologies (items rows) techs !! key) ↔ is_Some (techs !! key).
Proof.
  rewrite lookup_load_technologies.
  destruct (techs !! key); split; intros [x Hx]; try discriminate; eauto.
Qed.

Lemma technologies_load_cases (f : nat → option py_exception) (self : analyzer)
    (db : database) :
  technologies (load_from_db f self db) = technologies self
  ∨ technologies (load_from_db f self db)
    = load_technologies (items (tbl_technologies db)) (technologies self).
Proof.
  unfold load_from_db.
  repeat (match goal with
          | |- context [match f ?n with _ => _ end] => destruct (f n)
          end); fields; auto.
Qed.

Lemma step_technology_keys (s s' : analyzer * database) (key : string) :
  step s s' →
  is_Some (technologies s'.1 !! key) ↔ is_Some (technologies s.1 !! key).
Proof.
  intros Hstep. destruct Hstep as [f self db|from post self db|f self db]; fields.
  - destruct (technologies_load_cases f self db) as [->| ->]; [reflexivity|].
    apply is_Some_load_technologies.
  - change (technologies (scrape_post from post self))
      with (count_technologies (words post) (technologies self)).
    apply is_Some_count_technologies.
  - rewrite _update_db_run.
    destruct (first_fault f 0 (merge_calls self)); reflexivity.
Qed.

(** X6.  In every state of a session the keys of [technologies] are
    the vocabulary of [__init__]: analysing never adds a key, and
    loading ignores stored technologies under any other name. *)
Theorem technology_keys_fixed (db0 : database) (s : analyzer * database)
    (key : string) :
  reachable db0 s →
  is_Some (technologies s.1 !! key) ↔ key ∈ vocabulary.
Proof.
  intros Hr. unfold reachable in Hr.
  eapply (@rtc_ind_r _ step
            (λ s, is_Some (technologies s.1 !! key) ↔ key ∈ vocabulary));
    [| |exact Hr].
  - apply technologies_init_keys.
  - intros y z _ Hstep IH. rewrite (step_technology_keys y z key Hstep). exact IH.
Qed.

Lemma technology_keys_fixed_witness :
  let db0 := Database {["cobol" := 7; "python" := 3]} ∅ ∅ ∅ [] in
  reachable db0 (load_from_db no_faults init db0, db0)
  ∧ (is_Some (technologies (load_from_db no_faults init db0) !! "cobol")
     ↔ "cobol" ∈ vocabulary).
Proof.
  intros db0.
  assert (Hr : reachable db0 (load_from_db no_faults init db0, db0)).
  { unfold reachable. eapply rtc_l; [apply (step_load no_faults)|apply rtc_refl]. }
  split; [exact Hr|].
  exact (technology_keys_fixed db0 _ "cobol" Hr).
Defined.

(** ** Saving and loading *)

Lemma count_of_empty (key : string) : count_of key ∅ = 0.
Proof. unfold count_of. rewrite lookup_empty. reflexivity. Qed.

Lemma upsert_all_empty (d : gmap string Z) : upsert_all (items d) ∅ = d.
Proof.
  apply map_eq. intros j. rewrite lookup_upsert_all, count_of_empty, lookup_empty.
  destruct (d !! j); [f_equal; lia|reflexivity].
Qed.

Lemma load_counts_empty (rows : gmap string Z) : load_counts (items rows) ∅ = rows.
Proof.
  apply map_eq. intros j. rewrite lookup_load_counts, lookup_empty.
  destruct (rows !! j); reflexivity.
Qed.

(** X7.  Saving into an empty store and loading into a fresh
    analyzer gives back the analyzer that was saved, counters and
    posts, provided its technology keys are those of [__init__]. *)
Theorem save_load_round_trip (self : analyzer) :
  dom (technologies self) = dom (technologies init) →
  load_from_db no_faults init (_update_db no_faults self empty_db).1.2 = self.
Proof.
  intros Hdom. rewrite _update_db_no_faults, load_from_db_no_faults. fields.
  unfold merged, empty_db. fields. rewrite !upsert_all_empty.
  change (locations init) with (∅ : gmap string Z).
  change (salary_ranges init) with (∅ : gmap string Z).
  change (job_titles init) with (∅ : gmap string Z).
  rewrite !load_counts_empty. destruct self as [techs locs sals titles posts].
  fields in *. f_equal.
  - apply map_eq. intros j. rewrite lookup_load_technologies.
    destruct (technologies init !! j) as [n|] eqn:E.
    + assert (is_Some (techs !! j)) as [v Hv].
      { apply elem_of_dom. rewrite Hdom. apply elem_of_dom. eauto. }
      rewrite Hv. reflexivity.
    + symmetry. apply not_elem_of_dom. rewrite Hdom. apply not_elem_of_dom, E.
  - cbn [app]. rewrite map_map. cbn [snd]. apply map_id.
Qed.

Lemma save_load_round_trip_witness :
  let self := scrape LinkedIn ["seeking rust developer in oslo"; "go go $95k"] init in
  dom (technologies self) = dom (technologies init)
  ∧ load_from_db no_faults init (_update_db no_faults self empty_db).1.2 = self.
Proof.
  intros self.
  assert (H : dom (technologies self) = dom (technologies init))
    by (vm_compute; reflexivity).
  split; [exact H|exact (save_load_round_trip self H)].
Defined.

(** ** Merging twice *)

Lemma merged_tables_comm (s1 s2 : analyzer) (db : database) (t : table) :
  get_table t (merged s2 (merged s1 db)) = get_table t (merged s1 (merged s2 db)).
Proof.
  apply map_eq. intros j. rewrite !lookup_merged, !count_of_merged.
  unfold count_of.
  destruct (get_counter t s1 !! j), (get_counter t s2 !! j);
    cbn [default]; unfold id; try reflexivity; apply (f_equal Some); lia.
Qed.

(** X8.  Two merges give a row the same count in either order, the
    old count plus the two in-memory counts, and a merge repeated with
    the same counters adds them a second time: the stored count ends
    at what it was plus twice the in-memory count.  The counts and the
    sums the store computes on the way are 64-bit integers. *)
Theorem merges_commute_and_replay (s1 s2 : analyzer) (db : database)
    (t : table) (key : string) :
  let old := count_of key (get_table t db) in
  let c1 := count_of key (get_counter t s1) in
  let c2 := count_of key (get_counter t s2) in
  int64 old → int64 c1 → int64 c2 →
  int64 (old + c1) → int64 (old + c2) → int64 (old + c1 + c2) →
  int64 (old + c1 + c1) →
  get_table t (_update_db no_faults s2 (_update_db no_faults s1 db).1.2).1.2 !! key
  = get_table t (_update_db no_faults s1 (_update_db no_faults s2 db).1.2).1.2 !! key
  ∧ count_of key
      (get_table t (_update_db no_faults s2 (_update_db no_faults s1 db).1.2).1.2)
    = old + c1 + c2
  ∧ count_of key
      (get_table t (_update_db no_faults s1 (_update_db no_faults s2 db).1.2).1.2)
    = old + c1 + c2
  ∧ count_of key
      (get_table t (_update_db no_faults s1 (_update_db no_faults s1 db).1.2).1.2)
    = old + 2 * c1.
Proof.
  intros old c1 c2 _ _ _ _ _ _ _. subst old c1 c2.
  rewrite !_update_db_no_faults. fields.
  split; [|split; [|split]].
  - rewrite merged_tables_comm. reflexivity.
  - rewrite !count_of_merged. lia.
  - rewrite !count_of_merged. lia.
  - rewrite !count_of_merged. lia.
Qed.

Lemma merges_commute_and_replay_witness :
  let s1 := analyze_all ["python in berlin"; "python"] init in
  let s2 := analyze_all ["python and go"] init in
  let db := Database {["python" := 3]} ∅ ∅ ∅ [] in
  count_of "python"
    (get_table Technologies
       (_update_db no_faults s1 (_update_db no_faults s1 db).1.2).1.2)
  = 3 + 2 * 2.
Proof.
  intros s1 s2 db.
  assert (H1 : count_of "python" (get_counter Technologies s1) = 2)
    by (vm_compute; reflexivity).
  assert (H2 : count_of "python" (get_counter Technologies s2) = 1)
    by (vm_compute; reflexivity).
  assert (H0 : count_of "python" (get_table Technologies db) = 3) by reflexivity.
  pose proof (merges_commute_and_replay s1 s2 db Technologies "python") as H.
  cbv zeta in H. rewrite H0, H1, H2 in H.
  refine (proj2 (proj2 (proj2 (H _ _ _ _ _ _ _)))); unfold int64; lia.
Defined.

(** ** What loading does *)

Lemma load_counts_idem (rows d : gmap string Z) :
  load_counts (items rows) (load_counts (items rows) d) = load_counts (items rows) d.
Proof.
  apply map_eq. intros j. rewrite !lookup_load_counts.
  destruct (rows !! j); reflexivity.
Qed.

Lemma load_technologies_idem (rows techs : gmap string Z) :
  load_technologies (items rows) (load_technologies (items rows) techs)
  = load_technologies (items rows) techs.
Proof.
  apply map_eq. intros j. rewrite !lookup_load_technologies.
  destruct (techs !! j), (rows !! j); reflexivity.
Qed.

(** X9.  A load that meets no fault sets each technology of the
    analyzer that has a row to the stored count and ignores rows under
    other names; in the three other mappings it sets every key with a
    row to the stored count and keeps the keys without one; the posts
    in memory are replaced by the stored ones.  Loading twice is the
    same as loading once. *)
Theorem load_overwrites (self : analyzer) (db : database) :
  let loaded := load_from_db no_faults self db in
  (∀ key, technologies loaded !! key
          = match technologies self !! key with
            | Some n => Some (default n (tbl_technologies db !! key))
            | None => None
            end)
  ∧ (∀ t key, t ≠ Technologies →
       get_counter t loaded !! key
       = match get_table t db !! key with
         | Some stored => Some stored
         | None => get_counter t self !! key
         end)
  ∧ job_posts loaded = map snd (tbl_job_posts db)
  ∧ load_from_db no_faults loaded db = loaded.
Proof.
  intros loaded. subst loaded. rewrite !load_from_db_no_faults. fields.
  split; [|split; [|split]].
  - intros key. apply lookup_load_technologies.
  - intros t key Ht. destruct t; [congruence| | |]; fields;
      apply lookup_load_counts.
  - reflexivity.
  - rewrite load_technologies_idem, !load_counts_idem. reflexivity.
Qed.

Lemma load_overwrites_witness :
  let db := Database {["python" := 3]} {["berlin" := 2]} ∅ ∅ [] in
  let self := analyze_all ["remote berlin"; "remote oslo"] init in
  Locations ≠ Technologies
  ∧ get_counter Locations (load_from_db no_faults self db) !! "oslo"
    = match get_table Locations db !! "oslo" with
      | Some stored => Some stored
      | None => get_counter Locations self !! "oslo"
      end.
Proof.
  intros db self.
  assert (H : Locations ≠ Technologies) by discriminate.
  split; [exact H|].
  exact (proj1 (proj2 (load_overwrites self db)) Locations "oslo" H).
Defined.

(** ** All or nothing *)

Lemma first_fault_bound (f : nat → option py_exception) (n k : nat)
    (e : py_exception) :
  first_fault f n k = Some e → ∃ i, (n <= i < n + k)%nat ∧ f i = Some e.
Proof.
  revert n. induction k as [|k IH]; intros n; cbn [first_fault]; [discriminate|].
  destruct (f n) eqn:E.
  - intros [= <-]. exists n. split; [lia|exact E].
  - intros H. destruct (IH _ H) as (i & Hi & Hf). exists i. split; [lia|exact Hf].
Qed.

(** X10.  A merge is all or nothing.  Either one of the calls it makes
    on the store fails, and then it raises that exception with the
    store as it was; or none fails, and then it returns with the
    store as a merge without faults leaves it.  The analyzer is the
    same in both cases. *)
Theorem update_db_all_or_nothing (faults : nat → option py_exception)
    (self : analyzer) (db : database) :
  (∃ n e, (n < merge_calls self)%nat ∧ faults n = Some e
          ∧ _update_db faults self db = (self, db, Raised e))
  ∨ ((∀ n, (n < merge_calls self)%nat → faults n = None)
     ∧ _update_db faults self db = _update_db no_faults self db
     ∧ (_update_db no_faults self db).2 = Returned
     ∧ (_update_db no_faults self db).1.1 = self).
Proof.
  rewrite _update_db_no_faults, _update_db_run.
  destruct (first_fault faults 0 (merge_calls self)) as [e|] eqn:E.
  - left. destruct (first_fault_bound _ _ _ _ E) as (n & Hn & Hf).
    exists n, e. split; [lia|]. split; [exact Hf|reflexivity].
  - right. split; [|repeat split].
    intros n Hn. apply (first_fault_none _ _ _ n E). lia.
Qed.

(** ** What the matcher consumes *)

Lemma append_assoc_str (a b c : string) : (a +:+ b) +:+ c = a +:+ (b +:+ c).
Proof.
  induction a as [|x a IH]; [reflexivity|]. exact (f_equal (String x) IH).
Qed.

Lemma length_append_str (a b : string) :
  String.length (a +:+ b) = (String.length a + String.length b)%nat.
Proof. induction a as [|x a IH]; [reflexivity|]. exact (f_equal S IH). Qed.

Lemma take_append_str (w s : string) :
  Str.take (String.length (w +:+ s) - String.length s) (w +:+ s) = w.
Proof.
  rewrite length_append_str.
  replace (String.length w + String.length s - String.length s)%nat
    with (String.length w) by lia.
  induction w as [|x w IH].
  - destruct s; reflexivity.
  - exact (f_equal (String x) IH).
Qed.

Lemma eat_spec (a s s' : string) : Str.eat a s = Some s' → s = a +:+ s'.
Proof.
  revert s. induction a as [|x a IH]; intros s; cbn [Str.eat].
  - intros [= ->]. reflexivity.
  - destruct s as [|y s]; [discriminate|].
    destruct (Ascii.eqb x y) eqn:E; [|discriminate].
    apply Ascii.eqb_eq in E as ->. intros H.
    exact (f_equal (String y) (IH _ H)).
Qed.

Lemma rep_sound {A} (p : ascii → bool) (s : string) :
  ∀ (lo : nat) (hi : option nat) (b : option ascii)
    (k : option ascii → string → option A) (x : A),
  Re.rep p lo hi b s k = Some x →
  ∃ w s' b', s = w +:+ s' ∧ shape (Re.Rep p lo hi) w ∧ k b' s' = Some x.
Proof.
  induction s as [|c s IH]; intros lo hi b k x H.
  - cbn in H. destruct lo; [|discriminate].
    exists EmptyString, EmptyString, b. cbn. repeat split; [lia| |exact H].
    destruct hi; [lia|exact I].
  - assert (Hstop : match lo with O => k b (String c s) | S _ => None end = Some x →
              ∃ w s' b', String c s = w +:+ s' ∧ shape (Re.Rep p lo hi) w
                         ∧ k b' s' = Some x).
    { intros Hs. destruct lo; [|discriminate].
      exists EmptyString, (String c s), b. cbn. repeat split; [lia| |exact Hs].
      destruct hi; [lia|exact I]. }
    cbn [Re.rep] in H.
    destruct (p c && negb (bool_decide (hi = Some 0%nat))) eqn:Hc; [|auto].
    destruct (Re.rep p (Nat.pred lo) (Nat.pred <$> hi) (Some c) s k) as [y|] eqn:Hr;
      [|auto].
    injection H as ->. apply andb_true_iff in Hc as [Hp Hh].
    apply negb_true_iff, bool_decide_eq_false in Hh.
    destruct (IH _ _ _ _ _ Hr) as (w & s' & b' & -> & (Hall & Hlo & Hhi) & Hk).
    exists (String c w), s', b'. cbn [shape Str.all String.length].
    rewrite Hp, Hall. repeat split; [lia| |exact Hk].
    destruct hi as [h|]; [|exact I]. cbn in Hhi.
    destruct h; [congruence|cbn in Hhi; lia].
Qed.

(** Whatever the matcher consumes for a pattern has the pattern's
    shape. *)
Lemma run_sound {A} (r : Re.regex) :
  ∀ (p : Re.pos) (k : Re.pos → option A) (x : A),
  Re.run r p k = Some x →
  ∃ w p', Re.rest p = w +:+ Re.rest p' ∧ shape r w ∧ k p' = Some x.
Proof.
  induction r as [s|c lo hi| |r1 IH1 r2 IH2|r1 IH1 r2 IH2|i r IH]; intros p k x H;
    cbn [Re.run] in H.
  - destruct (Str.eat s (Re.rest p)) as [s'|] eqn:E; [|discriminate].
    eexists s, _. split; [|split; [reflexivity|exact H]]. apply eat_spec, E.
  - apply rep_sound in H as (w & s' & b' & Hs & Hw & Hk).
    exists w, (Re.Pos b' s' (Re.groups p)).
    split; [exact Hs|split; [exact Hw|exact Hk]].
  - destruct (Re.at_boundary p); [|discriminate].
    exists EmptyString, p. split; [reflexivity|split; [reflexivity|exact H]].
  - destruct (Re.run r1 p k) as [y|] eqn:E.
    + injection H as ->. destruct (IH1 _ _ _ E) as (w & p' & Hr & Hs & Hk).
      exists w, p'. split; [exact Hr|split; [left; exact Hs|exact Hk]].
    + destruct (IH2 _ _ _ H) as (w & p' & Hr & Hs & Hk).
      exists w, p'. split; [exact Hr|split; [right; exact Hs|exact Hk]].
  - destruct (IH1 _ _ _ H) as (w1 & p1 & E1 & S1 & H1).
    destruct (IH2 _ _ _ H1) as (w2 & p2 & E2 & S2 & H2).
    exists (w1 +:+ w2), p2. split; [|split; [|exact H2]].
    + rewrite E1, E2. symmetry. apply append_assoc_str.
    + exists w1, w2. split; [reflexivity|split; [exact S1|exact S2]].
  - destruct (IH _ _ _ H) as (w & p' & E & S & Hk).
    eexists w, _. split; [|split; [exact S|exact Hk]]. exact E.
Qed.

(** A group captures the text its pattern consumed. *)
Lemma run_group_sound {A} (i : nat) (r : Re.regex) (p : Re.pos)
    (k : Re.pos → option A) (x : A) :
  Re.run (Re.Group i r) p k = Some x →
  ∃ w p', shape r w
          ∧ k (Re.Pos (Re.before p') (Re.rest p') ((i, w) :: Re.groups p')) = Some x.
Proof.
  intros H. cbn [Re.run] in H.
  destruct (run_sound r _ _ _ H) as (w & p' & E & S & Hk).
  exists w, p'. split; [exact S|].
  unfold Re.consumed in Hk. rewrite E, take_append_str in Hk. exact Hk.
Qed.

(** What holds of the groups of every match holds of every element
    of [finditer]. *)
Lemma scan_Forall (r : Re.regex) (Q : list (nat * string) → Prop) :
  (∀ b s (k : Re.pos → option Re.pos) x,
     (∀ e y, k e = Some y → y = e) →
     Re.run r (Re.Pos b s []) k = Some x → Q (Re.groups x)) →
  ∀ s b n, Forall Q (Re.scan r b s n).
Proof.
  intros HQ.
  assert (Hat : ∀ b s e, Re.match_at r b s = Some e → Q (Re.groups e)).
  { intros b s e H. apply (HQ b s Some e); [|exact H]. congruence. }
  assert (Hne : ∀ b s e, Re.match_nonempty_at r b s = Some e → Q (Re.groups e)).
  { intros b s e H. unfold Re.match_nonempty_at in H.
    refine (HQ b s _ e _ H). intros e' y Hk.
    destruct (String.length (Re.rest e') <? String.length s)%nat;
      [|discriminate Hk].
    injection Hk as <-. reflexivity. }
  induction s as [|c s IH]; intros b n.
  - destruct n; cbn [Re.scan]; [|constructor].
    destruct (Re.match_at r b "") as [e|] eqn:E; [|constructor].
    constructor; [eapply Hat, E|].
    destruct (Re.width "" e); [|constructor].
    destruct (Re.match_nonempty_at r b "") as [e'|] eqn:E'; [|constructor].
    constructor; [eapply Hne, E'|constructor].
  - destruct n; cbn [Re.scan]; [|apply IH].
    destruct (Re.match_at r b (String c s)) as [e|] eqn:E; [|apply IH].
    constructor; [eapply Hat, E|].
    destruct (Re.width (String c s) e); [|apply IH].
    destruct (Re.match_nonempty_at r b (String c s)) as [e'|] eqn:E'; [|apply IH].
    constructor; [eapply Hne, E'|apply IH].
Qed.

Lemma run_seq {A} (a b : Re.regex) (p : Re.pos) (k : Re.pos → option A) :
  Re.run (Re.Seq a b) p k = Re.run a p (λ p', Re.run b p' k).
Proof. reflexivity. Qed.

Lemma findall1_Forall (r : Re.regex) (Q : string → Prop) (post : string) :
  (∀ b s (k : Re.pos → option Re.pos) x,
     (∀ e y, k e = Some y → y = e) →
     Re.run r (Re.Pos b s []) k = Some x → Q (Re.group 1 (Re.groups x))) →
  Forall Q (Re.findall1 r post).
Proof.
  intros H. unfold Re.findall1, Re.finditer. apply Forall_map.
  apply (scan_Forall r (λ gs, Q (Re.group 1 gs)) H).
Qed.

Lemma findall2_Forall (r : Re.regex) (Q : string → Prop) (post : string) :
  (∀ b s (k : Re.pos → option Re.pos) x,
     (∀ e y, k e = Some y → y = e) →
     Re.run r (Re.Pos b s []) k = Some x → Q (Re.group 2 (Re.groups x))) →
  Forall (λ m, Q (snd m)) (Re.findall2 r post).
Proof.
  intros H. unfold Re.findall2, Re.finditer. apply Forall_map.
  apply (scan_Forall r (λ gs, Q (Re.group 2 gs)) H).
Qed.

(** ** What the keys look like *)

Lemma salary_run_key (b : option ascii) (s : string)
    (k : Re.pos → option Re.pos) (x : Re.pos) :
  (∀ e y, k e = Some y → y = e) →
  Re.run salary_pattern (Re.Pos b s []) k = Some x →
  salary_key (Re.group 1 (Re.groups x)).
Proof.
  intros Hk H. unfold salary_pattern in H. rewrite run_seq in H.
  apply run_sound in H as (_ & p1 & _ & _ & H).
  apply run_group_sound in H as (w & p' & S & H).
  apply Hk in H as ->. cbn [Re.groups Re.group Nat.eqb].
  cbn [shape] in S. destruct S as [S|S].
  - destruct S as (d & w2 & -> & (Hall & Hlo & Hhi) & ->).
    left. exists d. split; [reflexivity|]. split; [exact Hall|lia].
  - destruct S as (d1 & w2 & -> & (H1 & L1 & U1) & (w3 & d2 & -> & -> & (H2 & L2 & U2))).
    right. exists d1, d2. split; [reflexivity|].
    split; [exact H1|]. split; [lia|]. split; [exact H2|lia].
Qed.

Lemma count_all_changed (l : list string) (d : gmap string Z) (key : string) :
  count_all l d !! key ≠ d !! key → key ∈ l.
Proof.
  revert d. induction l as [|x l IH]; intros d H;
    [exfalso; apply H; reflexivity|].
  change (count_all (x :: l) d) with (count_all l (incr x d)) in H.
  destruct (decide (x = key)) as [->|Hne]; [left|].
  right. apply (IH (incr x d)). rewrite (lookup_incr x key d).
  rewrite decide_False by exact Hne. exact H.
Qed.

(** X11.  Every salary key the analyzer counts is two or three digits
    followed by [k], or three digits, a comma and three digits: this
    holds of every result of [re.findall] for the salary pattern and
    so of every key whose count [_analyze_post] changes. *)
Theorem salary_keys_shape (post : string) (self : analyzer) :
  Forall salary_key (Re.findall1 salary_pattern post)
  ∧ ∀ key, salary_ranges (_analyze_post post self) !! key
           ≠ salary_ranges self !! key →
           salary_key key.
Proof.
  assert (F : Forall salary_key (Re.findall1 salary_pattern post)).
  { apply findall1_Forall. apply salary_run_key. }
  split; [exact F|]. intros key H.
  change (salary_ranges (_analyze_post post self))
    with (count_all (Re.findall1 salary_pattern post) (salary_ranges self)) in H.
  apply count_all_changed in H.
  apply (proj1 (Forall_forall _ _) F key H).
Qed.

Lemma salary_keys_shape_witness :
  salary_ranges (_analyze_post "pays $95k, up to $120,000" init) !! "120,000"
  ≠ salary_ranges init !! "120,000"
  ∧ salary_key "120,000".
Proof.
  assert (H : salary_ranges (_analyze_post "pays $95k, up to $120,000" init)
              !! "120,000" ≠ salary_ranges init !! "120,000")
    by (vm_compute; discriminate).
  split; [exact H|].
  exact (proj2 (salary_keys_shape _ init) "120,000" H).
Defined.

Lemma all_lstrip (p q : ascii → bool) (s : string) :
  Str.all p s = true → Str.all p (Str.lstrip q s) = true.
Proof.
  induction s as [|c s IH]; [auto|]. intros H. cbn [Str.lstrip].
  destruct (q c); [|exact H].
  cbn [Str.all] in H. apply andb_true_iff in H as [_ H]. apply IH, H.
Qed.

Lemma all_rstrip (p q : ascii → bool) (s : string) :
  Str.all p s = true → Str.all p (Str.rstrip q s) = true.
Proof.
  induction s as [|c s IH]; [auto|]. intros H. cbn [Str.rstrip].
  cbn [Str.all] in H. apply andb_true_iff in H as [Hc H].
  destruct (Str.is_empty (Str.rstrip q s) && q c); [reflexivity|].
  cbn [Str.all]. rewrite Hc, (IH H). reflexivity.
Qed.

Lemma all_strip (p : ascii → bool) (s : string) :
  Str.all p s = true → Str.all p (Str.strip s) = true.
Proof. intros H. apply all_rstrip, all_lstrip, H. Qed.

Lemma location_run_key (b : option ascii) (s : string)
    (k : Re.pos → option Re.pos) (x : Re.pos) :
  (∀ e y, k e = Some y → y = e) →
  Re.run location_pattern (Re.Pos b s []) k = Some x →
  Str.all location_class (Re.group 2 (Re.groups x)) = true.
Proof.
  intros Hk H. unfold location_pattern in H. rewrite run_seq in H.
  apply run_sound in H as (_ & p0 & _ & _ & H). rewrite run_seq in H.
  apply run_sound in H as (_ & p1 & _ & _ & H). rewrite run_seq in H.
  apply run_sound in H as (_ & p2 & _ & _ & H).
  apply run_group_sound in H as (w & p' & S & H).
  apply Hk in H as ->. cbn [Re.groups Re.group Nat.eqb].
  exact (proj1 S).
Qed.

Lemma title_run_key (b : option ascii) (s : string)
    (k : Re.pos → option Re.pos) (x : Re.pos) :
  (∀ e y, k e = Some y → y = e) →
  Re.run title_pattern (Re.Pos b s []) k = Some x →
  Str.all title_class (Re.group 2 (Re.groups x)) = true.
Proof.
  intros Hk H. unfold title_pattern in H. rewrite run_seq in H.
  apply run_sound in H as (_ & p0 & _ & _ & H). rewrite run_seq in H.
  apply run_sound in H as (_ & p1 & _ & _ & H). rewrite run_seq in H.
  apply run_sound in H as (_ & p2 & _ & _ & H). rewrite run_seq in H.
  apply run_group_sound in H as (w & p' & S & H).
  cbn [Re.run] in H. destruct (Re.at_boundary _); [|discriminate].
  apply Hk in H as ->. cbn [Re.groups Re.group Nat.eqb].
  exact (proj1 S).
Qed.

(** X12.  A location key the analyzer counts is made of ASCII
    letters, whitespace and commas only, and a title key of ASCII
    letters and whitespace only: no digit, no dot, no other sign gets
    into either. *)
Theorem location_title_alphabet (post : string) (self : analyzer) (key : string) :
  (locations (_analyze_post post self) !! key ≠ locations self !! key →
   Str.all location_class key = true)
  ∧ (job_titles (_analyze_post post self) !! key ≠ job_titles self !! key →
     Str.all title_class key = true).
Proof.
  split; intros H; apply count_first_changed in H as (m & rest & E & ->);
    apply all_strip.
  - pose proof (findall2_Forall location_pattern
                  (λ w, Str.all location_class w = true) post location_run_key) as F.
    rewrite E in F. apply Forall_cons_1 in F as [F _]. exact F.
  - pose proof (findall2_Forall title_pattern
                  (λ w, Str.all title_class w = true) post title_run_key) as F.
    rewrite E in F. apply Forall_cons_1 in F as [F _]. exact F.
Qed.

Lemma location_title_alphabet_witness :
  locations (_analyze_post "based in new york, ny. 5 days" init) !! "new york, ny"
  ≠ locations init !! "new york, ny"
  ∧ Str.all location_class "new york, ny" = true.
Proof.
  assert (H : locations (_analyze_post "based in new york, ny. 5 days" init)
              !! "new york, ny" ≠ locations init !! "new york, ny")
    by (vm_compute; discriminate).
  split; [exact H|].
  exact (proj1 (location_title_alphabet _ init "new york, ny") H).
Defined.

(** ** Analysis adds up *)

Lemma count_of_technologies_analyze (post : string) (self : analyzer)
    (key : string) :
  is_Some (technologies self !! key) →
  count_of key (technologies (_analyze_post post self))
  = count_of key (technologies self)
    + (if bool_decide (key ∈ words post) then 1 else 0).
Proof.
  intros [n Hn]. unfold count_of. rewrite technologies_analyze, Hn.
  simpl. case_bool_decide; lia.
Qed.

Lemma count_of_analyze_delta (post : string) (a b : analyzer) (t : table)
    (key : string) :
  (t = Technologies →
   is_Some (technologies a !! key) ∧ is_Some (technologies b !! key)) →
  count_of key (get_counter t (_analyze_post post a))
  - count_of key (get_counter t a)
  = count_of key (get_counter t (_analyze_post post b))
    - count_of key (get_counter t b).
Proof.
  intros Ht. unfold _analyze_post. destruct t; fields.
  - destruct (Ht eq_refl) as [Ha Hb].
    pose proof (count_of_technologies_analyze post a key Ha) as Ea.
    pose proof (count_of_technologies_analyze post b key Hb) as Eb.
    change (technologies (_analyze_post post ?s))
      with (count_technologies (words post) (technologies s)) in Ea, Eb.
    lia.
  - destruct (Re.findall2 location_pattern post); cbn [count_first]; [lia|].
    rewrite !count_of_incr. lia.
  - rewrite !count_of_count_all. lia.
  - destruct (Re.findall2 title_pattern post); cbn [count_first]; [lia|].
    rewrite !count_of_incr. lia.
Qed.

Lemma is_Some_technologies_analyze (post : string) (self : analyzer)
    (key : string) :
  is_Some (technologies (_analyze_post post self) !! key)
  ↔ is_Some (technologies self !! key).
Proof. apply is_Some_count_technologies. Qed.

Lemma count_of_analyze_all_delta (posts : list string) (a b : analyzer)
    (t : table) (key : string) :
  (t = Technologies →
   is_Some (technologies a !! key) ∧ is_Some (technologies b !! key)) →
  count_of key (get_counter t (analyze_all posts a))
  - count_of key (get_counter t a)
  = count_of key (get_counter t (analyze_all posts b))
    - count_of key (get_counter t b).
Proof.
  revert a b. induction posts as [|p posts IH]; intros a b Ht; [cbn; lia|].
  rewrite !analyze_all_cons.
  pose proof (count_of_analyze_delta p a b t key Ht) as E.
  assert (Ht' : t = Technologies →
            is_Some (technologies (_analyze_post p a) !! key)
            ∧ is_Some (technologies (_analyze_post p b) !! key)).
  { intros e. rewrite !is_Some_technologies_analyze. exact (Ht e). }
  pose proof (IH _ _ Ht'). lia.
Qed.

(** X13.  What a run adds does not depend on what was counted
    before: after analysing a list of posts, every count is the count
    before plus the count the same posts give a fresh analyzer (for a
    technology, provided it is a key of the analyzer and of the
    vocabulary). *)
Theorem analysis_adds_up (posts : list string) (self : analyzer) (t : table)
    (key : string) :
  (t = Technologies → is_Some (technologies self !! key) ∧ key ∈ vocabulary) →
  count_of key (get_counter t (analyze_all posts self))
  = count_of key (get_counter t self)
    + count_of key (get_counter t (analyze_all posts init)).
Proof.
  intros Ht.
  assert (H : t = Technologies →
            is_Some (technologies self !! key)
            ∧ is_Some (technologies init !! key)).
  { intros e. destruct (Ht e) as [H1 H2]. split; [exact H1|].
    apply technologies_init_keys, H2. }
  pose proof (count_of_analyze_all_delta posts self init t key H) as E.
  assert (Z0 : count_of key (get_counter t init) = 0).
  { destruct t; fields; try apply count_of_empty.
    destruct (H eq_refl) as [_ [n Hn]]. unfold count_of. rewrite Hn.
    apply elem_of_list_to_map_2, list_elem_of_In, in_map_iff in Hn
      as (x & [= _ <-] & _). reflexivity. }
  lia.
Qed.

Lemma analysis_adds_up_witness :
  (Technologies = Technologies →
   is_Some (technologies (analyze_all ["python"] init) !! "python")
   ∧ "python" ∈ vocabulary)
  ∧ count_of "python"
      (get_counter Technologies
         (analyze_all ["go, python"; "rust"] (analyze_all ["python"] init)))
    = count_of "python" (get_counter Technologies (analyze_all ["python"] init))
      + count_of "python"
          (get_counter Technologies (analyze_all ["go, python"; "rust"] init)).
Proof.
  assert (H : Technologies = Technologies →
              is_Some (technologies (analyze_all ["python"] init) !! "python")
              ∧ "python" ∈ vocabulary).
  { intros _. split; [exists 1; vm_compute; reflexivity|].
    apply (bool_decide_unpack ("python" ∈ vocabulary)). vm_compute. exact I. }
  split; [exact H|].
  exact (analysis_adds_up ["go, python"; "rust"] _ Technologies "python" H).
Defined.

(** ** Dispatch on the URL *)

Lemma scrape_counters (from : site) (posts : list string) (self : analyzer)
    (t : table) :
  get_counter t (scrape from posts self) = get_counter t (analyze_all posts self).
Proof.
  revert self. induction posts as [|p posts IH]; intros self; [reflexivity|].
  rewrite scrape_cons, analyze_all_cons, IH.
  apply analyze_all_counters_ext. intros t'. apply scrape_post_counters.
Qed.

(** ** A whole run *)

Lemma scrape_site_counters (url : string) (posts : list string)
    (self : analyzer) (t : table) :
  get_counter t (scrape_site url posts self)
  = get_counter t
      (analyze_all (match site_of url with Some _ => posts | None => [] end) self).
Proof.
  unfold scrape_site. destruct (site_of url); [apply scrape_counters|reflexivity].
Qed.

Lemma analyze_all_app (l1 l2 : list string) (self : analyzer) :
  analyze_all (l1 ++ l2) self = analyze_all l2 (analyze_all l1 self).
Proof. apply foldl_app. Qed.

Lemma run_counters (urls : list (string * list string)) (self : analyzer)
    (t : table) :
  get_counter t (foldl (λ self page, scrape_site page.1 page.2 self) self urls)
  = get_counter t (analyze_all (run_posts urls) self).
Proof.
  revert self. induction urls as [|[url posts] urls IH]; intros self;
    [reflexivity|].
  cbn [foldl run_posts flat_map fst snd]. rewrite IH, analyze_all_app.
  apply analyze_all_counters_ext. intros t'. apply scrape_site_counters.
Qed.

Lemma count_of_loaded_init (db : database) (t : table) (key : string) :
  (t = Technologies → key ∈ vocabulary) →
  count_of key (get_counter t (load_from_db no_faults init db))
  = count_of key (get_table t db).
Proof.
  intros Ht. rewrite load_from_db_no_faults. unfold count_of.
  destruct t; fields.
  - rewrite lookup_load_technologies.
    destruct (proj2 (technologies_init_keys key) (Ht eq_refl)) as [n Hn].
    rewrite Hn. cbn [default].
    apply elem_of_list_to_map_2, list_elem_of_In, in_map_iff in Hn
      as (x & [= _ <-] & _). reflexivity.
  - change (locations init) with (∅ : gmap string Z).
    rewrite load_counts_empty. reflexivity.
  - change (salary_ranges init) with (∅ : gmap string Z).
    rewrite load_counts_empty. reflexivity.
  - change (job_titles init) with (∅ : gmap string Z).
    rewrite load_counts_empty. reflexivity.
Qed.

Lemma count_of_init (t : table) (key : string) :
  count_of key (get_counter t init) = 0.
Proof.
  destruct t; fields; try apply count_of_empty.
  unfold count_of. destruct (technologies init !! key) as [n|] eqn:Hn;
    [|reflexivity].
  apply elem_of_list_to_map_2, list_elem_of_In, in_map_iff in Hn
    as (x & [= _ <-] & _). reflexivity.
Qed.

(** X15.  What a run of [main] does to a stored count (a technology of
    the vocabulary, or any location, salary or title), when the store
    does not fail and the counts involved are 64-bit integers.  With
    [--save-db] alone the count goes up by what the posts of the run
    give a fresh analyzer.  With [--load-db] and [--save-db] together
    the old count is added once more on top: the new count is twice
    the old one plus the run's.  Without [--save-db] the store is not
    touched. *)
Theorem main_stored_counts (urls : list (string * list string)) (db : database)
    (t : table) (key : string) :
  (t = Technologies → key ∈ vocabulary) →
  let old := count_of key (get_table t db) in
  let delta :=
    count_of key (get_counter t (analyze_all (run_posts urls) init)) in
  int64 old → int64 delta → int64 (old + delta) → int64 (2 * old + delta) →
  count_of key
    (get_table t (main no_faults no_faults (Args urls false true) db).1.2)
  = old + delta
  ∧ count_of key
      (get_table t (main no_faults no_faults (Args urls true true) db).1.2)
    = 2 * old + delta
  ∧ (∀ lf sf load, (main lf sf (Args urls load false) db).1.2 = db).
Proof.
  intros Ht old delta _ _ _ _. subst old delta. unfold main, _init_db.
  cbn [arg_urls arg_load_db arg_save_db]. rewrite !_update_db_no_faults. fields.
  assert (Hk : t = Technologies → is_Some (technologies init !! key)).
  { intros e. apply technologies_init_keys, Ht, e. }
  split; [|split].
  - rewrite count_of_merged, run_counters. reflexivity.
  - rewrite count_of_merged, run_counters.
    pose proof (count_of_analyze_all_delta (run_posts urls)
                  (load_from_db no_faults init db) init t key) as E.
    rewrite count_of_loaded_init, count_of_init in E by exact Ht.
    assert (H : t = Technologies →
              is_Some (technologies (load_from_db no_faults init db) !! key)
              ∧ is_Some (technologies init !! key)).
    { intros e. split; [|exact (Hk e)].
      rewrite load_from_db_no_faults. fields.
      apply is_Some_load_technologies, Hk, e. }
    specialize (E H). lia.
  - reflexivity.
Qed.

Lemma main_stored_counts_witness :
  let db := Database {["python" := 3]} {["berlin" := 2]} ∅ ∅ [] in
  let urls := [("https://www.linkedin.com/jobs", ["python at acme in berlin"])] in
  (Technologies = Technologies → "python" ∈ vocabulary)
  ∧ count_of "python"
      (get_table Technologies
         (main no_faults no_faults (Args urls true true) db).1.2)
    = 2 * 3 + 1.
Proof.
  intros db urls.
  assert (H : Technologies = Technologies → "python" ∈ vocabulary).
  { intros _. apply (bool_decide_unpack ("python" ∈ vocabulary)).
    vm_compute. exact I. }
  split; [exact H|].
  assert (H0 : count_of "python" (get_table Technologies db) = 3) by reflexivity.
  assert (H1 : count_of "python"
                 (get_counter Technologies (analyze_all (run_posts urls) init)) = 1)
    by (vm_compute; reflexivity).
  pose proof (main_stored_counts urls db Technologies "python" H) as M.
  cbv zeta in M. rewrite H0, H1 in M.
  refine (proj1 (proj2 (M _ _ _ _))); unfold int64; lia.
Defined.

(** ** Tokens *)


Lemma append_char_nonempty (s : string) (c : ascii) :
  Str.is_empty (s +:+ String c EmptyString) = false.
Proof. destruct s; reflexivity. Qed.




(** ** Sorting by count *)

Lemma insert_desc_perm (x : string * Z) (l : list (string * Z)) :
  insert_desc x l ≡ₚ x :: l.
Proof.
  induction l as [|y l IH]; cbn [insert_desc]; [reflexivity|].
  destruct (y.2 <=? x.2); [reflexivity|].
  rewrite IH. apply perm_swap.
Qed.

Lemma sorted_desc_perm (l : list (string * Z)) : sorted_desc l ≡ₚ l.
Proof.
  induction l as [|x l IH]; [reflexivity|].
  change (sorted_desc (x :: l)) with (insert_desc x (sorted_desc l)).
  rewrite insert_desc_perm, IH. reflexivity.
Qed.

Lemma insert_desc_sorted (x : string * Z) (l : list (string * Z)) :
  StronglySorted (λ a b, b.2 <= a.2) l →
  StronglySorted (λ a b, b.2 <= a.2) (insert_desc x l).
Proof.
  induction l as [|y l IH]; intros Hs; cbn [insert_desc].
  - repeat constructor.
  - apply StronglySorted_inv in Hs as [Hl Hy].
    destruct (y.2 <=? x.2) eqn:E.
    + apply Z.leb_le in E. constructor; [constructor; assumption|].
      constructor; [exact E|].
      eapply Forall_impl; [exact Hy|]. cbn. intros z Hz. lia.
    + apply Z.leb_gt in E. constructor; [apply IH, Hl|].
      rewrite insert_desc_perm. constructor; [lia|exact Hy].
Qed.

Lemma sorted_desc_sorted (l : list (string * Z)) :
  StronglySorted (λ a b, b.2 <= a.2) (sorted_desc l).
Proof.
  induction l as [|x l IH]; [constructor|].
  change (sorted_desc (x :: l)) with (insert_desc x (sorted_desc l)).
  apply insert_desc_sorted, IH.
Qed.



Lemma sorted_take (n : nat) (l : list (string * Z)) :
  StronglySorted (λ a b, b.2 <= a.2) l →
  StronglySorted (λ a b, b.2 <= a.2) (take n l).
Proof.
  intros H. rewrite <- (take_drop n l) in H.
  apply StronglySorted_app_1_l in H. exact H.
Qed.

Lemma sorted_filter (P : string * Z → Prop) `{∀ x, Decision (P x)}
    (l : list (string * Z)) :
  StronglySorted (λ a b, b.2 <= a.2) l →
  StronglySorted (λ a b, b.2 <= a.2) (filter P l).
Proof.
  induction 1 as [|x l Hs IH Hx]; [constructor|].
  rewrite filter_cons. destruct (decide (P x)); [|exact IH].
  constructor; [exact IH|]. apply Forall_forall. intros y Hy.
  apply list_elem_of_filter in Hy as [_ Hy].
  apply (proj1 (Forall_forall _ _) Hx y Hy).
Qed.

Lemma filter_all {A} (P : A → Prop) `{∀ x, Decision (P x)} (l : list A) :
  Forall P l → filter P l = l.
Proof.
  induction 1 as [|x l Hx _ IH]; [reflexivity|].
  rewrite filter_cons, decide_True by exact Hx. f_equal. exact IH.
Qed.

Lemma elem_of_technologies_items (self : analyzer) (tech : string) (n : Z) :
  (tech, n) ∈ technologies_items self
  ↔ tech ∈ vocabulary ∧ technologies self !! tech = Some n.
Proof.
  unfold technologies_items. rewrite list_elem_of_omap. split.
  - intros (t & Hin & Ht). destruct (technologies self !! t) as [m|] eqn:E;
      [|discriminate]. injection Ht as <- <-. auto.
  - intros [Hin Ht]. exists tech. split; [exact Hin|]. rewrite Ht. reflexivity.
Qed.

(** ** The report *)

(** X17.  The technologies of the report: at most five, each with a
    count above 0 that is its count in the analyzer, in order of
    falling count; and a technology with a count above 0 is left out
    only when five are listed, all with counts at least as large. *)
Theorem report_technologies_top (self : analyzer) :
  (length (report_technologies self) <= 5)%nat
  ∧ Forall (λ item, 0 < item.2) (report_technologies self)
  ∧ StronglySorted (λ a b, b.2 <= a.2) (report_technologies self)
  ∧ (∀ tech n, (tech, n) ∈ report_technologies self →
               tech ∈ vocabulary ∧ technologies self !! tech = Some n)
  ∧ (∀ tech n, tech ∈ vocabulary → technologies self !! tech = Some n →
               0 < n → (tech, n) ∉ report_technologies self →
               length (report_technologies self) = 5%nat
               ∧ Forall (λ item, n <= item.2) (report_technologies self)).
Proof.
  unfold report_technologies.
  set (sorted := sorted_desc (technologies_items self)).
  assert (Hsorted : StronglySorted (λ a b, b.2 <= a.2) sorted)
    by apply sorted_desc_sorted.
  split; [|split; [|split; [|split]]].
  - etrans; [apply length_filter|]. rewrite length_take. lia.
  - apply Forall_forall. intros item Hin.
    apply list_elem_of_filter in Hin as [Hpos _]. exact Hpos.
  - apply sorted_filter, sorted_take, Hsorted.
  - intros tech n Hin. apply list_elem_of_filter in Hin as [_ Hin].
    apply elem_of_take in Hin as (i & Hi & _).
    apply list_elem_of_lookup_2 in Hi. unfold sorted in Hi.
    rewrite sorted_desc_perm in Hi. apply elem_of_technologies_items, Hi.
  - intros tech n Hv Hn Hpos Hout.
    assert (Hin : (tech, n) ∈ sorted).
    { unfold sorted. rewrite sorted_desc_perm.
      apply elem_of_technologies_items. auto. }
    rewrite <- (take_drop 5 sorted) in Hin, Hsorted.
    apply elem_of_app in Hin as [Hin|Hin].
    { exfalso. apply Hout, list_elem_of_filter. auto. }
    assert (Hge : Forall (λ item, n <= item.2) (take 5 sorted)).
    { apply Forall_forall. intros item Hitem.
      apply (StronglySorted_app_1_elem_of _ _ _ item (tech, n) Hsorted Hitem Hin). }
    rewrite filter_all
      by (eapply Forall_impl; [exact Hge|]; cbn; intros; lia).
    split; [|exact Hge]. apply length_take_le.
    destruct (decide (5 <= length sorted)%nat) as [|Hlt]; [assumption|].
    rewrite drop_ge in Hin by lia. apply elem_of_nil in Hin. destruct Hin.
Qed.

Lemma report_technologies_top_witness :
  let self := analyze_all ["python, go"; "python"; "rust"] init in
  (("python", 2) ∈ report_technologies self)
  ∧ ("python" ∈ vocabulary ∧ technologies self !! "python" = Some 2).
Proof.
  intros self.
  assert (H : ("python", 2) ∈ report_technologies self).
  { apply (bool_decide_unpack (("python", 2) ∈ report_technologies self)).
    vm_compute. exact I. }
  split; [exact H|].
  exact (proj1 (proj2 (proj2 (proj2 (report_technologies_top self)))) _ _ H).
Defined.

(** The report of a fresh analyzer lists no technology, and ties go by
    the order of the vocabulary. *)
Lemma report_technologies_examples :
  report_technologies init = []
  ∧ report_technologies (analyze_all ["rust, go and python"; "go"] init)
    = [("go", 2); ("python", 1); ("rust", 1)].
Proof. split; vm_compute; reflexivity. Qed.

(** ** The CSV file *)




(** ** Finding a token *)

Lemma append_nil_r_str (s : string) : s +:+ EmptyString = s.
Proof. induction s as [|c s IH]; [reflexivity|]. exact (f_equal (String c) IH). Qed.

Lemma split_from_space (cur pre rest : string) (sp : ascii) :
  Char.isspace sp = true →
  Str.split_from cur (pre +:+ String sp rest)
  = (Str.split_from cur pre ++ Str.split_from EmptyString rest)%list.
Proof.
  intros Hsp. revert cur. induction pre as [|c pre IH]; intros cur.
  - change ("" +:+ String sp rest) with (String sp rest).
    cbn [Str.split_from]. rewrite Hsp. reflexivity.
  - change (String c pre +:+ String sp rest) with (String c (pre +:+ String sp rest)).
    cbn [Str.split_from]. destruct (Char.isspace c).
    + rewrite IH, app_assoc. reflexivity.
    + apply IH.
Qed.

Lemma split_from_word (cur w suf : string) :
  Str.all (λ c, negb (Char.isspace c)) w = true →
  w ≠ EmptyString →
  (suf = EmptyString ∨ ∃ sp suf', suf = String sp suf' ∧ Char.isspace sp = true) →
  (cur +:+ w) ∈ Str.split_from cur (w +:+ suf).
Proof.
  intros Hw Hne Hsuf. revert cur Hne. induction w as [|c w IH]; intros cur Hne;
    [congruence|].
  cbn [Str.all] in Hw. apply andb_true_iff in Hw as [Hc Hw].
  apply negb_true_iff in Hc.
  change (String c w +:+ suf) with (String c (w +:+ suf)).
  cbn [Str.split_from]. rewrite Hc.
  replace (cur +:+ String c w) with ((cur +:+ String c EmptyString) +:+ w)
    by (rewrite append_assoc_str; reflexivity).
  destruct w as [|d w'].
  - change ("" +:+ suf) with suf. rewrite append_nil_r_str.
    destruct Hsuf as [->|(sp & suf' & -> & Hsp)]; cbn [Str.split_from].
    + rewrite append_char_nonempty. left.
    + rewrite Hsp, append_char_nonempty. left.
  - apply (IH Hw). discriminate.
Qed.

(** X19.  A word that stands in the post between whitespace (or the
    ends of the text) is one of its tokens, so its stripped form is in
    the set the technologies are looked up in: a technology written as
    a separate word, with or without punctuation of the strip set
    around it, always counts. *)
Theorem delimited_word_is_counted (pre w suf : string) (self : analyzer) (n : Z) :
  (pre = EmptyString
   ∨ ∃ pre' sp, pre = pre' +:+ String sp EmptyString ∧ Char.isspace sp = true) →
  (suf = EmptyString
   ∨ ∃ sp suf', suf = String sp suf' ∧ Char.isspace sp = true) →
  w ≠ EmptyString →
  Str.all (λ c, negb (Char.isspace c)) w = true →
  technologies self !! Str.strip_chars strip_set w = Some n →
  w ∈ Str.split (pre +:+ w +:+ suf)
  ∧ Str.strip_chars strip_set w ∈ words (pre +:+ w +:+ suf)
  ∧ technologies (_analyze_post (pre +:+ w +:+ suf) self)
      !! Str.strip_chars strip_set w = Some (n + 1).
Proof.
  intros Hpre Hsuf Hne Hw Hn.
  assert (Hsplit : w ∈ Str.split (pre +:+ w +:+ suf)).
  { unfold Str.split. destruct Hpre as [->|(pre' & sp & -> & Hsp)].
    - change ("" +:+ w +:+ suf) with (w +:+ suf).
      apply (split_from_word EmptyString w suf Hw Hne Hsuf).
    - rewrite append_assoc_str.
      change (String sp "" +:+ w +:+ suf) with (String sp (w +:+ suf)).
      rewrite (split_from_space _ _ _ _ Hsp). apply elem_of_app. right.
      apply (split_from_word EmptyString w suf Hw Hne Hsuf). }
  assert (Hwords : Str.strip_chars strip_set w ∈ words (pre +:+ w +:+ suf)).
  { apply elem_of_words. exists w. split; [exact Hsplit|reflexivity]. }
  split; [exact Hsplit|]. split; [exact Hwords|].
  rewrite technologies_analyze, Hn. cbn [fmap option_fmap option_map].
  rewrite bool_decide_eq_true_2 by exact Hwords. reflexivity.
Qed.

Lemma delimited_word_is_counted_witness :
  ("we use " = EmptyString
   ∨ ∃ pre' sp, "we use " = pre' +:+ String sp EmptyString
                ∧ Char.isspace sp = true)
  ∧ (" daily" = EmptyString
     ∨ ∃ sp suf', " daily" = String sp suf' ∧ Char.isspace sp = true)
  ∧ technologies (_analyze_post ("we use " +:+ "(c++)," +:+ " daily") init)
      !! Str.strip_chars strip_set "(c++)," = Some (0 + 1).
Proof.
  assert (H1 : "we use " = EmptyString
               ∨ ∃ pre' sp, "we use " = pre' +:+ String sp EmptyString
                            ∧ Char.isspace sp = true).
  { right. exists "we use", " "%char. split; reflexivity. }
  assert (H2 : " daily" = EmptyString
               ∨ ∃ sp suf', " daily" = String sp suf' ∧ Char.isspace sp = true).
  { right. exists " "%char, "daily". split; reflexivity. }
  split; [exact H1|]. split; [exact H2|].
  refine (proj2 (proj2 (delimited_word_is_counted "we use " "(c++)," " daily"
                          init 0 H1 H2 _ _ _))); [discriminate|reflexivity|].
  vm_compute. reflexivity.
Defined.

(** ** Loading part-way *)

(** X20.  [load_from_db] is not all or nothing.  It makes five reads
    in the order technologies, locations, salaries, job titles, posts;
    what was read before the first failing one is assigned as in a
    load without faults, and everything from the failing read on is
    left as it was. *)
Theorem load_stops_at_first_fault (faults : nat → option py_exception)
    (self : analyzer) (db : database) :
  let loaded := load_from_db faults self db in
  let full := load_from_db no_faults self db in
  technologies loaded
  = (match first_fault faults 0 1 with
     | Some _ => technologies self
     | None => technologies full
     end)
  ∧ locations loaded
    = (match first_fault faults 0 2 with
     | Some _ => locations self
     | None => locations full
     end)
  ∧ salary_ranges loaded
    = (match first_fault faults 0 3 with
     | Some _ => salary_ranges self
     | None => salary_ranges full
     end)
  ∧ job_titles loaded
    = (match first_fault faults 0 4 with
     | Some _ => job_titles self
     | None => job_titles full
     end)
  ∧ job_posts loaded
    = (match first_fault faults 0 5 with
     | Some _ => job_posts self
     | None => job_posts full
     end).
Proof.
  intros loaded full. subst loaded full. rewrite load_from_db_no_faults.
  unfold load_from_db. cbn [first_fault].
  destruct (faults 0%nat); [repeat split|].
  destruct (faults 1%nat); [repeat split|].
  destruct (faults 2%nat); [repeat split|].
  destruct (faults 3%nat); [repeat split|].
  destruct (faults 4%nat); repeat split.
Qed.

(** A read that fails after the first leaves the analyzer half loaded. *)
Lemma load_half_done :
  let db := Database {["python" := 3]} {["berlin" := 2]} ∅ ∅ [] in
  let e := PyException "sqlite3.OperationalError" "database is locked" in
  let faults := λ n : nat, if decide (n = 1%nat) then Some e else None in
  technologies (load_from_db faults init db) !! "python" = Some 3
  ∧ locations (load_from_db faults init db) !! "berlin" = None.
Proof. split; vm_compute; reflexivity. Qed.

(** ** A location for every card *)

Lemma last_char_append (b : option ascii) (x y : string) :
  Str.last_char b (x +:+ y) = Str.last_char (Str.last_char b x) y.
Proof.
  revert b. induction x as [|c x IH]; intros b; [reflexivity|].
  change (String c x +:+ y) with (String c (x +:+ y)). cbn [Str.last_char].
  apply IH.
Qed.

(** Where the scan finds nothing, the pattern matches at no position. *)
Lemma scan_nil_no_match (r : Re.regex) (pre s : string) (b : option ascii) :
  Re.scan r b (pre +:+ s) 0 = [] →
  Re.match_at r (Str.last_char b pre) s = None.
Proof.
  revert b. induction pre as [|c pre IH]; intros b H.
  - change ("" +:+ s) with s in H. cbn [Str.last_char].
    destruct (Re.match_at r b s) eqn:E; [|reflexivity].
    destruct s; cbn [Re.scan] in H; rewrite E in H; discriminate H.
  - change (String c pre +:+ s) with (String c (pre +:+ s)) in H.
    cbn [Re.scan] in H. cbn [Str.last_char].
    destruct (Re.match_at r b (String c (pre +:+ s))); [discriminate H|].
    apply IH, H.
Qed.

(** A repetition that may stop at once always gives its continuation
    a position it accepts, if the continuation accepts every one. *)
Lemma rep_zero_total {A} (p : ascii → bool) (hi : option nat) (s : string)
    (b : option ascii) (k : option ascii → string → option A) :
  (∀ b s, is_Some (k b s)) → is_Some (Re.rep p 0 hi b s k).
Proof.
  intros Hk. revert hi b. induction s as [|c s IH]; intros hi b;
    cbn [Re.rep]; [apply Hk|].
  destruct (p c && negb (bool_decide (hi = Some 0%nat))); [|apply Hk].
  cbn [Nat.pred].
  destruct (Re.rep p 0 (Nat.pred <$> hi) (Some c) s k) eqn:E; [eauto|apply Hk].
Qed.

Lemma run_anchor_in {A} (b : option ascii) (tail : string)
    (k : Re.pos → option A) :
  Re.run (Re.Group 1 (Re.alts location_anchors))
    (Re.Pos b (String "i" (String "n" tail)) []) k
  = k (Re.Pos (Some "n"%char) tail [(1%nat, "in")]).
Proof.
  unfold location_anchors.
  cbn [Re.alts Re.run Re.rest Re.before Re.groups Str.eat Str.last_char].
  change (Ascii.eqb "l" "i") with false. change (Ascii.eqb "b" "i") with false.
  change (Ascii.eqb "r" "i") with false. change (Ascii.eqb "h" "i") with false.
  change (Ascii.eqb "o" "i") with false. change (Ascii.eqb "i" "i") with true.
  change (Ascii.eqb "n" "n") with true. cbv iota.
  unfold Re.consumed. cbn [Re.rest].
  change (String "i" (String "n" tail)) with ("in" +:+ tail).
  rewrite (take_append_str "in" tail). reflexivity.
Qed.

Lemma run_one_space {A} (b : option ascii) (c : ascii) (rest : string)
    (gs : list (nat * string)) (k : Re.pos → option A) :
  Char.isspace c = false →
  Re.run (Re.Rep Char.isspace 1 None) (Re.Pos b (String " " (String c rest)) gs) k
  = k (Re.Pos (Some " "%char) (String c rest) gs).
Proof.
  intros Hc. cbn [Re.run Re.rep Re.before Re.rest Re.groups].
  change (Char.isspace " ") with true. rewrite Hc.
  rewrite bool_decide_eq_false_2 by discriminate. cbn [andb negb Nat.pred].
  destruct (k _); reflexivity.
Qed.

Lemma run_class_total (p : ascii → bool) (i : nat) (b : option ascii) (c : ascii)
    (rest : string) (gs : list (nat * string)) :
  p c = true →
  is_Some (Re.run (Re.Group i (Re.Rep p 1 None)) (Re.Pos b (String c rest) gs) Some).
Proof.
  intros Hc. cbn [Re.run Re.rep Re.before Re.rest Re.groups]. rewrite Hc.
  rewrite bool_decide_eq_false_2 by discriminate. cbn [andb negb Nat.pred].
  match goal with
  | |- is_Some (match ?x with _ => _ end) =>
      assert (Hin : is_Some x) by (apply rep_zero_total; intros; eauto);
      destruct Hin as [y ->]; eauto
  end.
Qed.

(** The location pattern matches at [in ], after a character that is
    not a word character, when a letter or comma follows. *)
Lemma location_match_at_in (b : option ascii) (c : ascii) (rest : string) :
  Re.wordish b = false →
  location_class c = true → Char.isspace c = false →
  is_Some (Re.match_at location_pattern b ("in " +:+ String c rest)).
Proof.
  intros Hb Hc Hsp. unfold Re.match_at, location_pattern.
  change ("in " +:+ String c rest)
    with (String "i" (String "n" (String " " (String c rest)))).
  rewrite run_seq.
  assert (Hwb : ∀ (k : Re.pos → option Re.pos),
            Re.run Re.WordB
              (Re.Pos b (String "i" (String "n" (String " " (String c rest)))) []) k
            = k (Re.Pos b (String "i" (String "n" (String " " (String c rest)))) [])).
  { intros k. cbn [Re.run]. unfold Re.at_boundary.
    cbn [Re.before Re.rest Re.next_char]. rewrite Hb. reflexivity. }
  rewrite Hwb, run_seq, run_anchor_in, run_seq, (run_one_space _ _ _ _ _ Hsp).
  apply run_class_total, Hc.
Qed.

Lemma location_after_in (x : string) (c : ascii) (rest : string) :
  location_class c = true → Char.isspace c = false →
  Re.findall2 location_pattern (x +:+ " in " +:+ String c rest) ≠ [].
Proof.
  intros Hc Hsp E. unfold Re.findall2, Re.finditer in E.
  apply map_eq_nil in E.
  change (x +:+ " in " +:+ String c rest)
    with (x +:+ (String " " EmptyString +:+ ("in " +:+ String c rest))) in E.
  rewrite <- append_assoc_str in E. apply scan_nil_no_match in E.
  rewrite last_char_append in E. cbn [Str.last_char] in E.
  destruct (location_match_at_in (Some " "%char) c rest eq_refl Hc Hsp) as [e He].
  rewrite He in E. discriminate E.
Qed.

Lemma location_counted (post : string) (self : analyzer) :
  Re.findall2 location_pattern post ≠ [] →
  ∃ key, count_of key (locations (_analyze_post post self))
         = count_of key (locations self) + 1.
Proof.
  intros H.
  change (locations (_analyze_post post self))
    with (count_first (Re.findall2 location_pattern post) (locations self)).
  destruct (Re.findall2 location_pattern post) as [|m ms]; [congruence|].
  exists (Str.strip m.2). cbn [count_first]. rewrite count_of_incr.
  rewrite decide_True by reflexivity. reflexivity.
Qed.

(** X21.  Every LinkedIn card and every Indeed card whose location
    field begins with a letter or a comma records a location signal:
    the text the scraper builds puts [ in ] before the location, which
    the location pattern matches unless an earlier match already
    covers it. *)
Theorem card_has_location (title company : string) (c : ascii)
    (location snippet : string) (self : analyzer) :
  location_class c = true → Char.isspace c = false →
  (Re.findall2 location_pattern
     (linkedin_post_text title company (String c location)) ≠ []
   ∧ ∃ key,
       count_of key
         (locations
            (_analyze_post (linkedin_post_text title company (String c location))
               self))
       = count_of key (locations self) + 1)
  ∧ (Re.findall2 location_pattern
       (indeed_post_text title company (String c location) snippet) ≠ []
     ∧ ∃ key,
         count_of key
           (locations
              (_analyze_post
                 (indeed_post_text title company (String c location) snippet)
                 self))
         = count_of key (locations self) + 1).
Proof.
  intros Hc Hsp.
  assert (L : Re.findall2 location_pattern
                (linkedin_post_text title company (String c location)) ≠ []).
  { unfold linkedin_post_text.
    rewrite <- (append_assoc_str title " at " _),
      <- (append_assoc_str (title +:+ " at ") company _).
    apply location_after_in; assumption. }
  assert (I : Re.findall2 location_pattern
                (indeed_post_text title company (String c location) snippet) ≠ []).
  { unfold indeed_post_text.
    rewrite <- (append_assoc_str title " at " _),
      <- (append_assoc_str (title +:+ " at ") company _).
    change (String c location +:+ ". " +:+ snippet)
      with (String c (location +:+ ". " +:+ snippet)).
    apply location_after_in; assumption. }
  split; (split; [assumption|apply location_counted; assumption]).
Qed.

Lemma card_has_location_witness :
  location_class "b" = true
  ∧ Char.isspace "b" = false
  ∧ Re.findall2 location_pattern
      (linkedin_post_text "data engineer" "acme" "berlin, germany") ≠ [].
Proof.
  split; [reflexivity|]. split; [reflexivity|].
  exact (proj1 (proj1 (card_has_location "data engineer" "acme" "b"
                         "erlin, germany" "" init eq_refl eq_refl))).
Defined.

(** The key need not be the location field: an anchor word in the
    title comes first. *)
Lemma card_location_from_title :
  Re.findall2 location_pattern
    (linkedin_post_text "remote engineer" "acme" "oslo")
  = [("remote", "engineer at acme in oslo")].
Proof. vm_compute. reflexivity. Qed.

(** ** The sections of the report *)

Lemma top_is_largest (n : nat) (items : list (string * Z)) (x y : string * Z) :
  x ∈ items → x ∉ take n (sorted_desc items) → y ∈ take n (sorted_desc items) →
  x.2 <= y.2.
Proof.
  intros Hx Hout Hy.
  pose proof (sorted_desc_sorted items) as Hs.
  rewrite <- (sorted_desc_perm items), <- (take_drop n (sorted_desc items)) in Hx.
  rewrite <- (take_drop n (sorted_desc items)) in Hs.
  apply elem_of_app in Hx as [Hx|Hx]; [contradiction|].
  apply (StronglySorted_app_1_elem_of _ _ _ y x Hs Hy Hx).
Qed.

Lemma top_three (items : list (string * Z)) :
  length (take 3 (sorted_desc items)) = Nat.min 3 (length items)
  ∧ StronglySorted (λ a b, b.2 <= a.2) (take 3 (sorted_desc items))
  ∧ ∃ rest, (take 3 (sorted_desc items) ++ rest)%list ≡ₚ items
            ∧ ∀ x y, x ∈ rest → y ∈ take 3 (sorted_desc items) → x.2 <= y.2.
Proof.
  split; [|split].
  - rewrite length_take, (sorted_desc_perm items). reflexivity.
  - apply sorted_take, sorted_desc_sorted.
  - exists (drop 3 (sorted_desc items)). split.
    + rewrite take_drop. apply sorted_desc_perm.
    + intros x y Hx Hy. pose proof (sorted_desc_sorted items) as Hs.
      rewrite <- (take_drop 3 (sorted_desc items)) in Hs.
      apply (StronglySorted_app_1_elem_of _ _ _ y x Hs Hy Hx).
Qed.

Lemma not_heading_in_mentions (text : string) (f : string → string)
    (l : list (string * Z)) :
  Heading text ∉ map (λ item, Mentions (f item.1) item.2) l.
Proof.
  intros H. apply list_elem_of_In, in_map_iff in H as (item & H & _).
  discriminate H.
Qed.

(** X22.  The location and salary sections of the report.  Each is
    there exactly when its mapping has an item.  After the three
    opening lines and the technology lines the report is the location
    section and then the salary section, each a heading followed by
    one line per listed item (a salary with [$] before its key), and
    the items a section lists are the first three by count: as many as
    there are, up to three, in order of falling count, taken from the
    mapping's items, and no item left out has a larger count than one
    that is listed. *)
Theorem report_sections (self : analyzer)
    (location_items salary_items : list (string * Z)) :
  (Heading "Top Locations:" ∈ generate_report self location_items salary_items
   ↔ location_items ≠ [])
  ∧ (Heading "Salary Ranges Mentioned:"
       ∈ generate_report self location_items salary_items
     ↔ salary_items ≠ [])
  ∧ ∃ top_locations top_salaries,
      generate_report self location_items salary_items
      = ([Heading "=== Job Market Analysis Report ===";
          TotalPosts (length (job_posts self));
          Heading "Top Technologies:"]
         ++ map (λ item, Mentions item.1 item.2) (report_technologies self)
         ++ (if decide (location_items = []) then []
             else Heading "Top Locations:"
                  :: map (λ item, Mentions item.1 item.2) top_locations)
         ++ (if decide (salary_items = []) then []
             else Heading "Salary Ranges Mentioned:"
                  :: map (λ item, Mentions ("$" +:+ item.1) item.2) top_salaries))%list
      ∧ (length top_locations = Nat.min 3 (length location_items)
         ∧ StronglySorted (λ a b, b.2 <= a.2) top_locations
         ∧ ∃ rest, (top_locations ++ rest)%list ≡ₚ location_items
                   ∧ ∀ x y, x ∈ rest → y ∈ top_locations → x.2 <= y.2)
      ∧ (length top_salaries = Nat.min 3 (length salary_items)
         ∧ StronglySorted (λ a b, b.2 <= a.2) top_salaries
         ∧ ∃ rest, (top_salaries ++ rest)%list ≡ₚ salary_items
                   ∧ ∀ x y, x ∈ rest → y ∈ top_salaries → x.2 <= y.2).
Proof.
  split; [|split].
  - unfold generate_report. generalize (report_technologies self). intros techs.
    rewrite !elem_of_app. split.
    + intros [H|[H|[H|H]]].
      * apply list_elem_of_In in H. cbn [In] in H.
        destruct H as [H|[H|[H|[]]]]; discriminate H.
      * apply (not_heading_in_mentions _ id) in H. destruct H.
      * destruct location_items; [apply elem_of_nil in H; destruct H|discriminate].
      * destruct salary_items; [apply elem_of_nil in H; destruct H|].
        apply elem_of_cons in H as [H|H]; [discriminate H|].
        apply (not_heading_in_mentions _ (λ s, "$" +:+ s)) in H. destruct H.
    + intros Hne. right. right. left.
      destruct location_items; [congruence|]. left.
  - unfold generate_report. generalize (report_technologies self). intros techs.
    rewrite !elem_of_app. split.
    + intros [H|[H|[H|H]]].
      * apply list_elem_of_In in H. cbn [In] in H.
        destruct H as [H|[H|[H|[]]]]; discriminate H.
      * apply (not_heading_in_mentions _ id) in H. destruct H.
      * destruct location_items; [apply elem_of_nil in H; destruct H|].
        apply elem_of_cons in H as [H|H]; [discriminate H|].
        apply (not_heading_in_mentions _ id) in H. destruct H.
      * destruct salary_items; [apply elem_of_nil in H; destruct H|discriminate].
    + intros Hne. right. right. right.
      destruct salary_items; [congruence|]. left.
  - exists (take 3 (sorted_desc location_items)), (take 3 (sorted_desc salary_items)).
    split; [|split].
    + unfold generate_report. generalize (report_technologies self). intros techs.
      destruct location_items, salary_items; reflexivity.
    + apply top_three.
    + apply top_three.
Qed.

(** A report with five locations and one salary. *)
Lemma report_sections_example :
  generate_report init
    [("oslo", 1); ("berlin", 3); ("paris", 2); ("rome", 2); ("nice", 1)]
    [("120k", 1)]
  = [Heading "=== Job Market Analysis Report ===";
     TotalPosts 0;
     Heading "Top Technologies:";
     Heading "Top Locations:";
     Mentions "berlin" 3; Mentions "paris" 2; Mentions "rome" 2;
     Heading "Salary Ranges Mentioned:";
     Mentions "$120k" 1].
Proof. vm_compute. reflexivity. Qed.

(** ** Where a location is recorded *)

Lemma run_wordb {A} (p : Re.pos) (k : Re.pos → option A) :
  Re.run Re.WordB p k = if Re.at_boundary p then k p else None.
Proof. reflexivity. Qed.

Lemma run_rep {A} (c : ascii → bool) (lo : nat) (hi : option nat) (p : Re.pos)
    (k : Re.pos → option A) :
  Re.run (Re.Rep c lo hi) p k
  = Re.rep c lo hi (Re.before p) (Re.rest p) (λ b s, k (Re.Pos b s (Re.groups p))).
Proof. reflexivity. Qed.

Lemma run_group {A} (i : nat) (r : Re.regex) (p : Re.pos) (k : Re.pos → option A) :
  Re.run (Re.Group i r) p k
  = Re.run r p
      (λ p', k (Re.Pos (Re.before p') (Re.rest p')
                  ((i, Re.consumed p p') :: Re.groups p'))).
Proof. reflexivity. Qed.

Lemma eat_append (a s : string) : Str.eat a (a +:+ s) = Some s.
Proof.
  induction a as [|c a IH]; [reflexivity|].
  change (String c a +:+ s) with (String c (a +:+ s)). cbn [Str.eat].
  rewrite Ascii.eqb_refl. exact IH.
Qed.

(** A repetition finds a run that its continuation accepts, if there
    is one. *)
Lemma rep_complete {A} (p : ascii → bool) (w : string) :
  ∀ (lo : nat) (hi : option nat) (b : option ascii)
    (k : option ascii → string → option A) (s' : string),
  Str.all p w = true → (lo <= String.length w)%nat →
  match hi with Some h => (String.length w <= h)%nat | None => True end →
  is_Some (k (Str.last_char b w) s') →
  is_Some (Re.rep p lo hi b (w +:+ s') k).
Proof.
  induction w as [|c w IH]; intros lo hi b k s' Hall Hlo Hhi Hk.
  - cbn [String.length] in Hlo. assert (lo = 0%nat) as -> by lia.
    change ("" +:+ s') with s'. cbn [Str.last_char] in Hk.
    destruct s' as [|c s']; cbn [Re.rep]; [exact Hk|].
    destruct (p c && negb (bool_decide (hi = Some 0%nat))); [|exact Hk].
    destruct (Re.rep p (Nat.pred 0) (Nat.pred <$> hi) (Some c) s' k);
      [eauto|exact Hk].
  - change (String c w +:+ s') with (String c (w +:+ s')). cbn [Re.rep].
    cbn [Str.all] in Hall. apply andb_true_iff in Hall as [Hc Hall].
    rewrite Hc. rewrite bool_decide_eq_false_2.
    2: { destruct hi as [h|]; [|discriminate].
         cbn [String.length] in Hhi. intros [= ->]. lia. }
    cbn [andb negb].
    destruct (IH (Nat.pred lo) (Nat.pred <$> hi) (Some c) k s' Hall) as [x Hx].
    + cbn [String.length] in Hlo. lia.
    + destruct hi as [h|]; [|exact I].
      cbn [String.length] in Hhi.
      change (Nat.pred <$> Some h) with (Some (Nat.pred h)). cbv beta iota. lia.
    + exact Hk.
    + rewrite Hx. eauto.
Qed.

(** An unbounded repetition whose continuation accepts every position
    takes the longest run. *)
Lemma rep_greedy {A} (p : ascii → bool) (s : string) :
  ∀ (lo : nat) (b : option ascii) (k : option ascii → string → option A) (x : A),
  (∀ b s, is_Some (k b s)) →
  Re.rep p lo None b s k = Some x →
  ∃ w s', s = w +:+ s' ∧ Str.all p w = true ∧ (lo <= String.length w)%nat
          ∧ k (Str.last_char b w) s' = Some x
          ∧ ∀ c, Str.first_char s' = Some c → p c = false.
Proof.
  induction s as [|c s IH]; intros lo b k x Hk H.
  - cbn [Re.rep] in H. destruct lo; [|discriminate].
    exists EmptyString, EmptyString. cbn [Str.last_char Str.all String.length].
    split; [reflexivity|]. split; [reflexivity|]. split; [lia|].
    split; [exact H|]. intros c Hc. discriminate Hc.
  - cbn [Re.rep] in H. rewrite bool_decide_eq_false_2 in H by discriminate.
    change (Nat.pred <$> None) with (@None nat) in H.
    destruct (p c) eqn:Hc; cbn [andb negb] in H.
    + destruct (Re.rep p (Nat.pred lo) None (Some c) s k) as [y|] eqn:E.
      * injection H as ->.
        destruct (IH _ _ _ _ Hk E) as (w & s' & -> & Hall & Hlo & Hx & Hmax).
        exists (String c w), s'. cbn [Str.last_char Str.all String.length].
        rewrite Hc, Hall. split; [reflexivity|]. split; [reflexivity|].
        split; [lia|]. split; [exact Hx|exact Hmax].
      * destruct lo; [|discriminate]. cbn [Nat.pred] in E.
        destruct (rep_zero_total p None s (Some c) k Hk) as [y Hy].
        rewrite E in Hy. discriminate Hy.
    + destruct lo; [|discriminate].
      exists EmptyString, (String c s). cbn [Str.last_char Str.all String.length].
      split; [reflexivity|]. split; [reflexivity|]. split; [lia|].
      split; [exact H|]. intros c' [= <-]. exact Hc.
Qed.

(** A match of an alternation of literals consumes one of them. *)
Lemma run_alts_sound {A} (l : list string) (p : Re.pos) (k : Re.pos → option A)
    (x : A) :
  l ≠ [] → Re.run (Re.alts l) p k = Some x →
  ∃ a s', a ∈ l ∧ Str.eat a (Re.rest p) = Some s'
          ∧ k (Re.Pos (Str.last_char (Re.before p) a) s' (Re.groups p)) = Some x.
Proof.
  induction l as [|a l IH]; intros Hne H; [congruence|].
  destruct l as [|b l].
  - cbn [Re.alts Re.run] in H.
    destruct (Str.eat a (Re.rest p)) as [s'|] eqn:E; [|discriminate].
    exists a, s'. split; [left|]. split; [exact E|exact H].
  - change (Re.alts (a :: b :: l)) with (Re.Alt (Re.Lit a) (Re.alts (b :: l))) in H.
    cbn [Re.run] in H.
    destruct (match Str.eat a (Re.rest p) with
              | Some s' => k (Re.Pos (Str.last_char (Re.before p) a) s' (Re.groups p))
              | None => None
              end) as [y|] eqn:E.
    + injection H as ->.
      destruct (Str.eat a (Re.rest p)) as [s'|] eqn:E'; [|discriminate].
      exists a, s'. split; [left|]. split; [exact E'|exact E].
    + destruct IH as (a' & s' & Hin & He & Hk); [discriminate|exact H|].
      exists a', s'. split; [right; exact Hin|]. split; [exact He|exact Hk].
Qed.

(** An alternation of literals matches when one of them is there and
    the continuation accepts the position after it. *)
Lemma run_alts_complete {A} (l : list string) (p : Re.pos) (k : Re.pos → option A)
    (a s' : string) :
  a ∈ l → Str.eat a (Re.rest p) = Some s' →
  is_Some (k (Re.Pos (Str.last_char (Re.before p) a) s' (Re.groups p))) →
  is_Some (Re.run (Re.alts l) p k).
Proof.
  intros Hin He Hk. induction l as [|a0 l IH]; [apply elem_of_nil in Hin; destruct Hin|].
  destruct l as [|b l].
  - apply elem_of_cons in Hin as [->|Hin]; [|apply elem_of_nil in Hin; destruct Hin].
    cbn [Re.alts Re.run].
    rewrite He. exact Hk.
  - change (Re.alts (a0 :: b :: l)) with (Re.Alt (Re.Lit a0) (Re.alts (b :: l))).
    cbn [Re.run].
    destruct (match Str.eat a0 (Re.rest p) with
              | Some s0 => k (Re.Pos (Str.last_char (Re.before p) a0) s0 (Re.groups p))
              | None => None
              end) as [y|] eqn:E; [eauto|].
    apply IH. apply elem_of_cons in Hin as [->|Hin]; [|exact Hin].
    rewrite He in E. rewrite E in Hk. destruct Hk as [y Hy]. discriminate Hy.
Qed.

(** Every anchor phrase begins with a letter. *)
Lemma location_anchor_wordish (a s : string) :
  a ∈ location_anchors → Re.wordish (Re.next_char (a +:+ s)) = true.
Proof.
  intros Ha. unfold location_anchors in Ha.
  repeat (apply elem_of_cons in Ha as [->|Ha]; [reflexivity|]).
  apply elem_of_nil in Ha. destruct Ha.
Qed.

Lemma nonempty_length (s : string) : (1 <= String.length s)%nat ↔ s ≠ "".
Proof.
  destruct s; cbn [String.length]; split; intros H; try lia; congruence.
Qed.

(** What a match of the location pattern consists of. *)
Lemma location_match_inv (b : option ascii) (s : string) (e : Re.pos) :
  Re.match_at location_pattern b s = Some e →
  ∃ a ws run,
    s = a +:+ ws +:+ run +:+ Re.rest e
    ∧ a ∈ location_anchors ∧ Re.wordish b = false
    ∧ ws ≠ "" ∧ Str.all Char.isspace ws = true
    ∧ run ≠ "" ∧ Str.all location_class run = true
    ∧ Re.group 1 (Re.groups e) = a ∧ Re.group 2 (Re.groups e) = run
    ∧ ∀ c, Str.first_char (Re.rest e) = Some c → location_class c = false.
Proof.
  unfold Re.match_at, location_pattern. intros H.
  rewrite run_seq, run_wordb in H.
  destruct (Re.at_boundary (Re.Pos b s [])) eqn:Hb; [|discriminate].
  rewrite run_seq, run_group in H.
  apply run_alts_sound in H as (a & s1 & Ha & Ea & H); [|discriminate].
  cbn [Re.before Re.rest Re.groups] in H, Ea. apply eat_spec in Ea as ->.
  unfold Re.consumed in H. cbn [Re.rest] in H. rewrite take_append_str in H.
  rewrite run_seq, run_rep in H. cbn [Re.before Re.rest Re.groups] in H.
  apply rep_sound in H as (ws & s2 & b2 & -> & (Hws & Hlo & _) & H).
  rewrite run_group, run_rep in H. cbn [Re.before Re.rest Re.groups] in H.
  apply rep_greedy in H as (run & tail & -> & Hrun & Hlo' & H & Hmax);
    [|intros; eauto].
  injection H as <-. cbn [Re.rest Re.groups Re.group Nat.eqb].
  unfold Re.consumed. cbn [Re.rest]. rewrite take_append_str.
  exists a, ws, run. split; [reflexivity|]. split; [exact Ha|].
  split.
  { unfold Re.at_boundary in Hb. cbn [Re.before Re.rest] in Hb.
    rewrite (location_anchor_wordish a _ Ha) in Hb.
    destruct (Re.wordish b); [discriminate Hb|reflexivity]. }
  split; [apply nonempty_length, Hlo|]. split; [exact Hws|].
  split; [apply nonempty_length, Hlo'|]. split; [exact Hrun|].
  split; [reflexivity|]. split; [reflexivity|exact Hmax].
Qed.

(** The location pattern matches wherever a location phrase begins. *)
Lemma location_phrase_matches (b : option ascii) (s : string) :
  location_phrase_at b s → is_Some (Re.match_at location_pattern b s).
Proof.
  intros (a & ws & run & tail & -> & Ha & Hb & Hws0 & Hws & Hrun0 & Hrun).
  unfold Re.match_at, location_pattern. rewrite run_seq, run_wordb.
  unfold Re.at_boundary. cbn [Re.before Re.rest].
  rewrite (location_anchor_wordish a _ Ha), Hb. cbn [xorb].
  rewrite run_seq, run_group.
  apply (run_alts_complete _ _ _ a (ws +:+ run +:+ tail) Ha);
    [apply eat_append|].
  cbn [Re.before Re.rest Re.groups]. rewrite run_seq, run_rep.
  cbn [Re.before Re.rest Re.groups].
  apply rep_complete; [exact Hws|apply nonempty_length, Hws0|exact I|].
  rewrite run_group, run_rep. cbn [Re.before Re.rest Re.groups].
  apply rep_complete; [exact Hrun|apply nonempty_length, Hrun0|exact I|eauto].
Qed.

(** The first element of a scan is the match at the first position
    that has one. *)
Lemma scan_head (r : Re.regex) (s : string) :
  ∀ b gs l, Re.scan r b s 0 = gs :: l →
  ∃ pre s' e, s = pre +:+ s'
              ∧ Re.match_at r (Str.last_char b pre) s' = Some e
              ∧ gs = Re.groups e
              ∧ ∀ pre1 s1, s = pre1 +:+ s1 →
                  (String.length pre1 < String.length pre)%nat →
                  Re.match_at r (Str.last_char b pre1) s1 = None.
Proof.
  induction s as [|c s IH]; intros b gs l H; cbn [Re.scan] in H.
  - destruct (Re.match_at r b "") as [e|] eqn:E; [|discriminate].
    injection H as <- _. exists EmptyString, EmptyString, e.
    split; [reflexivity|]. split; [exact E|]. split; [reflexivity|].
    intros pre1 s1 _ Hlen. cbn [String.length] in Hlen. lia.
  - destruct (Re.match_at r b (String c s)) as [e|] eqn:E.
    + injection H as <- _. exists EmptyString, (String c s), e.
      split; [reflexivity|]. split; [exact E|]. split; [reflexivity|].
      intros pre1 s1 _ Hlen. cbn [String.length] in Hlen. lia.
    + apply IH in H as (pre & s' & e & -> & Hm & -> & Hleft).
      exists (String c pre), s', e.
      split; [reflexivity|]. split; [exact Hm|]. split; [reflexivity|].
      intros pre1 s1 Hs Hlen. destruct pre1 as [|c1 pre1].
      * change ("" +:+ s1) with s1 in Hs. subst s1. exact E.
      * change (String c1 pre1 +:+ s1) with (String c1 (pre1 +:+ s1)) in Hs.
        injection Hs as <- Hs. cbn [Str.last_char].
        apply Hleft; [exact Hs|]. cbn [String.length] in Hlen. lia.
Qed.

Lemma incr_changes (key : string) (d : gmap string Z) : incr key d ≠ d.
Proof.
  intros E. pose proof (count_of_incr key key d) as H. rewrite E in H.
  rewrite decide_True in H by reflexivity. lia.
Qed.

(** C4 (as stated) fails: an anchor phrase followed by a run of
    letters and commas is not enough.  In [onsite,berlin] the anchor
    [onsite] is followed by the run [,berlin] and no location is
    recorded, because no whitespace separates them; in
    [maintain things] the anchor [in] is followed by a blank and
    letters and no location is recorded, because the anchor is inside
    a word. *)
Lemma location_anchor_and_run_not_recorded :
  "onsite,berlin" = "onsite" +:+ ",berlin"
  ∧ "onsite" ∈ location_anchors
  ∧ Str.all location_class ",berlin" = true
  ∧ Re.findall2 location_pattern "onsite,berlin" = []
  ∧ locations (_analyze_post "onsite,berlin" init) = locations init
  ∧ "maintain things" = "mainta" +:+ "in" +:+ " things"
  ∧ "in" ∈ location_anchors
  ∧ Str.all location_class " things" = true
  ∧ Re.findall2 location_pattern "maintain things" = []
  ∧ locations (_analyze_post "maintain things" init) = locations init.
Proof.
  assert (H1 : "onsite" ∈ location_anchors).
  { apply (bool_decide_unpack ("onsite" ∈ location_anchors)). vm_compute. exact I. }
  assert (H2 : "in" ∈ location_anchors).
  { apply (bool_decide_unpack ("in" ∈ location_anchors)). vm_compute. exact I. }
  repeat apply conj; try exact H1; try exact H2; vm_compute; reflexivity.
Qed.

(** C4.  A post records at most one location signal, and records one
    exactly when a location phrase begins somewhere in it: an anchor
    phrase that is not preceded by a word character, then at least one
    whitespace character, then at least one letter, whitespace
    character or comma.  Only the first match of the pattern counts:
    the count of its second group, stripped of the whitespace at its
    two ends, goes up by 1 and every other count stays.  That match is
    the leftmost location phrase of the post, and its second group is
    the whole run of letters, whitespace and commas after the
    whitespace that follows the anchor.  The post
    [remote based in austin, also based in dallas] has one match and
    yields one signal; in [located in berlin . apply] the group ends
    with a blank and the key is [berlin]; a post in which none of the
    anchor phrases occurs yields no signal. *)
Theorem location_first_match_only (post : string) (self : analyzer) :
  let after := locations (_analyze_post post self) in
  (has_location_phrase post ↔ after ≠ locations self)
  ∧ match Re.findall2 location_pattern post with
    | [] => after = locations self
    | m :: _ =>
        let key := Str.strip (snd m) in
        after = incr key (locations self)
        ∧ (∀ k, count_of k after
                = count_of k (locations self) + (if decide (key = k) then 1 else 0))
        ∧ (∃ pre suf, snd m = pre +:+ key +:+ suf
                      ∧ Str.all Char.isspace pre = true
                      ∧ Str.all Char.isspace suf = true)
        ∧ (∀ c, Str.first_char key = Some c → Char.isspace c = false)
        ∧ (∀ c, Str.last_char None key = Some c → Char.isspace c = false)
        ∧ ∃ pre ws tail,
            post = pre +:+ fst m +:+ ws +:+ snd m +:+ tail
            ∧ fst m ∈ location_anchors
            ∧ Re.wordish (Str.last_char None pre) = false
            ∧ ws ≠ "" ∧ Str.all Char.isspace ws = true
            ∧ snd m ≠ "" ∧ Str.all location_class (snd m) = true
            ∧ (∀ c, Str.first_char tail = Some c → location_class c = false)
            ∧ (∀ pre1 s1, post = pre1 +:+ s1 →
                 (String.length pre1 < String.length pre)%nat →
                 ¬ location_phrase_at (Str.last_char None pre1) s1)
    end
  ∧ ((∀ a, a ∈ location_anchors → Str.contains a post = false) →
     after = locations self)
  ∧ Re.findall2 location_pattern "remote based in austin, also based in dallas"
    = [("remote", "based in austin, also based in dallas")]
  ∧ locations (_analyze_post "remote based in austin, also based in dallas" self)
    = incr "based in austin, also based in dallas" (locations self)
  ∧ Re.findall2 location_pattern "located in berlin . apply"
    = [("located in", "berlin ")]
  ∧ locations (_analyze_post "located in berlin . apply" self)
    = incr "berlin" (locations self).
Proof.
  intros after. subst after.
  change (locations (_analyze_post post self))
    with (count_first (Re.findall2 location_pattern post) (locations self)).
  assert (Hhead : ∀ m ms, Re.findall2 location_pattern post = m :: ms →
            ∃ pre ws tail,
              post = pre +:+ fst m +:+ ws +:+ snd m +:+ tail
              ∧ fst m ∈ location_anchors
              ∧ Re.wordish (Str.last_char None pre) = false
              ∧ ws ≠ "" ∧ Str.all Char.isspace ws = true
              ∧ snd m ≠ "" ∧ Str.all location_class (snd m) = true
              ∧ (∀ c, Str.first_char tail = Some c → location_class c = false)
              ∧ (∀ pre1 s1, post = pre1 +:+ s1 →
                   (String.length pre1 < String.length pre)%nat →
                   ¬ location_phrase_at (Str.last_char None pre1) s1)).
  { intros m ms E. unfold Re.findall2, Re.finditer in E.
    destruct (Re.scan location_pattern None post 0) as [|gs l] eqn:Es;
      [discriminate E|].
    cbn [map] in E. injection E as <- _.
    apply scan_head in Es as (pre & s & e & -> & Hm & -> & Hleft).
    apply location_match_inv in Hm
      as (a & ws & run & -> & Ha & Hb & Hws0 & Hws & Hrun0 & Hrun & -> & -> & Hmax).
    exists pre, ws, (Re.rest e). cbn [fst snd].
    split; [reflexivity|]. split; [exact Ha|]. split; [exact Hb|].
    split; [exact Hws0|]. split; [exact Hws|]. split; [exact Hrun0|].
    split; [exact Hrun|]. split; [exact Hmax|].
    intros pre1 s1 Hs Hlen Hph. apply location_phrase_matches in Hph as [e' He'].
    rewrite (Hleft pre1 s1 Hs Hlen) in He'. discriminate He'. }
  split; [|split; [|split; [|split; [|split; [|split]]]]].
  - split.
    + intros (pre & s & -> & Hph).
      apply location_phrase_matches in Hph as [e He].
      destruct (Re.findall2 location_pattern (pre +:+ s)) as [|m ms] eqn:E.
      * unfold Re.findall2, Re.finditer in E. apply map_eq_nil in E.
        apply scan_nil_no_match in E. rewrite E in He. discriminate He.
      * cbn [count_first]. apply incr_changes.
    + intros Hne.
      destruct (Re.findall2 location_pattern post) as [|m ms] eqn:E;
        [destruct Hne; reflexivity|].
      destruct (Hhead m ms eq_refl)
        as (pre & ws & tail & -> & Ha & Hb & Hws0 & Hws & Hrun0 & Hrun & _ & _).
      exists pre, (fst m +:+ ws +:+ snd m +:+ tail). split; [reflexivity|].
      exists (fst m), ws, (snd m), tail. auto 10.
  - destruct (Re.findall2 location_pattern post) as [|m ms] eqn:E;
      cbn [count_first]; [reflexivity|]. cbv zeta.
    split; [reflexivity|]. split; [intros k; apply count_of_incr|].
    pose proof (strip_by_spec Char.isspace (snd m)) as (H1 & H2 & H3).
    split; [exact H1|]. split; [exact H2|]. split; [exact H3|].
    exact (Hhead m ms eq_refl).
  - intros Hno. rewrite (no_anchor_no_location post Hno). reflexivity.
  - vm_compute. reflexivity.
  - change (locations (_analyze_post ?p self))
      with (count_first (Re.findall2 location_pattern p) (locations self)).
    replace (Re.findall2 location_pattern "remote based in austin, also based in dallas")
      with [("remote", "based in austin, also based in dallas")]
      by (vm_compute; reflexivity).
    reflexivity.
  - vm_compute. reflexivity.
  - change (locations (_analyze_post ?p self))
      with (count_first (Re.findall2 location_pattern p) (locations self)).
    replace (Re.findall2 location_pattern "located in berlin . apply")
      with [("located in", "berlin ")] by (vm_compute; reflexivity).
    reflexivity.
Qed.

Lemma location_first_match_only_witness :
  (∀ a, a ∈ location_anchors → Str.contains a "python and rust, $120k" = false)
  ∧ locations (_analyze_post "python and rust, $120k" init) = locations init
  ∧ locations (_analyze_post "located in berlin . apply" init)
    = incr "berlin" (locations init).
Proof.
  assert (H : ∀ a, a ∈ location_anchors →
                Str.contains a "python and rust, $120k" = false).
  { intros a Ha. unfold location_anchors in Ha.
    repeat (apply elem_of_cons in Ha as [->|Ha]; [vm_compute; reflexivity|]).
    apply elem_of_nil in Ha. destruct Ha. }
  pose proof (location_first_match_only "python and rust, $120k" init) as T.
  cbv zeta in T.
  split; [exact H|]. split.
  - exact (proj1 (proj2 (proj2 T)) H).
  - exact (proj2 (proj2 (proj2 (proj2 (proj2 (proj2 T)))))).
Defined.
